(** * Bucket-notification coalescing of pulumi-aws-serverless

    A shallow embedding of [nodejs/aws-serverless/bucket.ts] and
    [nodejs/aws-serverless/s3/bucket.ts]: the subscribe entry point
    [onEvent], the four convenience helpers, the constructor of
    [BucketEventSubscription], the module-level registry
    [bucketSubscriptionInfos] and the [beforeExit] handler that turns the
    registry into [aws.s3.BucketNotification] resources.

    JavaScript objects that the code shares and mutates (the [Map] held by
    [bucketSubscriptionInfos], the arrays stored in it) live in an explicit
    heap and are addressed by reference; everything the code hands to the
    Pulumi engine is appended to a log of declared resources. *)

From stdpp Require Import base option list strings.

Open Scope string_scope.
Open Scope list_scope.

(** ** Values the code passes around *)

(** The two source files.  Each one has its own [bucketSubscriptionInfos]
    and its own [beforeExit] handler. *)
Inductive SrcModule := bucket_ts | s3_bucket_ts.

Global Instance SrcModule_eq_dec : EqDecision SrcModule.
Proof. solve_decision. Defined.

(** An [s3.Bucket] object.  It is used as a [Map] key, so what counts is the
    identity of the object. *)
Inductive Bucket := BucketObj (oid : nat).

Global Instance Bucket_eq_dec : EqDecision Bucket.
Proof. solve_decision. Defined.

(** A handler callback and a [pulumi.ResourceOptions] bag; both are only
    passed along. *)
Inductive Handler := HandlerFn (oid : nat).
Inductive ResourceOptions := ResourceOpts (oid : nat).

(** A handle on a resource this code has declared: its position in the log
    of declared resources. *)
Abbreviation ResRef := nat (only parsing).
(** References into the heap of [Map] objects and of arrays. *)
Abbreviation MapRef := nat (only parsing).
Abbreviation ArrRef := nat (only parsing).

(** [pulumi.Output<string>] values built by the code. *)
Inductive Output :=
| bucket_id (b : Bucket)          (* bucket.id *)
| function_arn (func : ResRef)    (* func.arn *)
| apply_s3_arn (o : Output).      (* o.apply(bucketName => `arn:aws:s3:::${bucketName}`) *)

(** [interface BucketSubscriptionArgs] ([BucketEventSubscriptionArgs] in
    s3/bucket.ts). *)
Record BucketSubscriptionArgs := {
  events : list string;
  filterPrefix : option string;
  filterSuffix : option string;
}.

(** [interface SimpleBucketSubscriptionArgs], the type of [BucketPutArgs]
    and [BucketDeleteArgs]. *)
Record SimpleBucketSubscriptionArgs := {
  simple_filterPrefix : option string;
  simple_filterSuffix : option string;
}.

(** [interface ObjectCreatedSubscriptionArgs].  TypeScript declares [event]
    as one of the literals of [ObjectCreated_literals]; at run time it is a
    string. *)
Record ObjectCreatedSubscriptionArgs := {
  oc_filterPrefix : option string;
  oc_filterSuffix : option string;
  oc_event : option string;
}.

Definition ObjectCreated_literals : list string :=
  ["*"; "Put"; "Post"; "Copy"; "CompleteMultipartUpload"].

(** [interface ObjectRemovedSubscriptionArgs]. *)
Record ObjectRemovedSubscriptionArgs := {
  or_filterPrefix : option string;
  or_filterSuffix : option string;
  or_event : option string;
}.

Definition ObjectRemoved_literals : list string :=
  ["*"; "Delete"; "DeleteMarkerCreated"].

(** [interface SubscriptionInfo]. *)
Record SubscriptionInfo := {
  name : string;
  info_events : list string;
  info_filterPrefix : option string;
  info_filterSuffix : option string;
  lambdaFunctionArn : Output;
  permission : ResRef;
}.

(** One element of [lambdaFunctions] in the arguments of
    [aws.s3.BucketNotification]. *)
Record LambdaFunctionEntry := {
  lf_events : list string;
  lf_filterPrefix : option string;
  lf_filterSuffix : option string;
  lf_lambdaFunctionArn : Output;
}.

(** What the code declares to the engine. *)
Inductive Resource :=
| LambdaFunction (fname : string) (handler : Handler)
    (opts : option ResourceOptions)
| EventSubscription (type rname : string) (func : ResRef) (bucket : Bucket)
    (opts : option ResourceOptions)
| Permission (rname : string) (func : ResRef) (action principal : string)
    (sourceArn : Output) (parent : ResRef)
| BucketNotification (rname : string) (bucket : Output)
    (lambdaFunctions : list LambdaFunctionEntry)
    (parent : Bucket) (dependsOn : list ResRef).

(** The object returned by [new BucketEventSubscription(...)]: the component
    itself, and the [func] and [permission] it exposes. *)
Record BucketEventSubscription := {
  sub_self : ResRef;
  sub_func : ResRef;
  sub_permission : ResRef;
  sub_bucket : Bucket;
}.

(** ** The process state *)

Record World := {
  arrays : list (list SubscriptionInfo);
  maps : list (list (Bucket * ArrRef));
  reg_bucket_ts : MapRef;     (* bucketSubscriptionInfos of bucket.ts *)
  reg_s3_bucket_ts : MapRef;  (* bucketSubscriptionInfos of s3/bucket.ts *)
  declared : list Resource;
}.

(** Both files run [new Map()] when they are loaded. *)
Definition init : World :=
  {| arrays := []; maps := [[]; []];
     reg_bucket_ts := 0; reg_s3_bucket_ts := 1; declared := [] |}.

Definition reg (m : SrcModule) (w : World) : MapRef :=
  match m with
  | bucket_ts => reg_bucket_ts w
  | s3_bucket_ts => reg_s3_bucket_ts w
  end.

Definition with_arrays (h : list (list SubscriptionInfo)) (w : World) : World :=
  {| arrays := h; maps := maps w; reg_bucket_ts := reg_bucket_ts w;
     reg_s3_bucket_ts := reg_s3_bucket_ts w; declared := declared w |}.

Definition with_maps (h : list (list (Bucket * ArrRef))) (w : World) : World :=
  {| arrays := arrays w; maps := h; reg_bucket_ts := reg_bucket_ts w;
     reg_s3_bucket_ts := reg_s3_bucket_ts w; declared := declared w |}.

Definition with_reg (m : SrcModule) (r : MapRef) (w : World) : World :=
  match m with
  | bucket_ts =>
      {| arrays := arrays w; maps := maps w; reg_bucket_ts := r;
         reg_s3_bucket_ts := reg_s3_bucket_ts w; declared := declared w |}
  | s3_bucket_ts =>
      {| arrays := arrays w; maps := maps w; reg_bucket_ts := reg_bucket_ts w;
         reg_s3_bucket_ts := r; declared := declared w |}
  end.

Definition with_declared (d : list Resource) (w : World) : World :=
  {| arrays := arrays w; maps := maps w; reg_bucket_ts := reg_bucket_ts w;
     reg_s3_bucket_ts := reg_s3_bucket_ts w; declared := d |}.

(** ** Computations: state plus exceptions *)

(** [TypeError] is what JavaScript raises on a property read of
    [undefined].  [InvalidArgument] is the condition the specification
    names; [BadRef] is a read through a reference that was never
    allocated. *)
Inductive Exn := TypeError | InvalidArgument | BadRef.

Inductive outcome (A : Type) :=
| Returned (a : A)
| Thrown (e : Exn).
Arguments Returned {A} a.
Arguments Thrown {A} e.

Definition M (A : Type) : Type := World → outcome A * World.

Definition ret {A} (a : A) : M A := λ w, (Returned a, w).
Definition throw {A} (e : Exn) : M A := λ w, (Thrown e, w).
Definition bind {A B} (c : M A) (k : A → M B) : M B :=
  λ w, match c w with
       | (Returned a, w') => k a w'
       | (Thrown e, w') => (Thrown e, w')
       end.

Notation "'let*' x ':=' c 'in' k" := (bind c (λ x, k))
  (at level 10, x pattern, c at level 100, k at level 200).

Definition modify (f : World → World) : M unit := λ w, (Returned tt, f w).
Definition gets {A} (f : World → A) : M A := λ w, (Returned (f w), w).

(** ** The heap: [Map] objects and arrays *)

(** [new Map()] *)
Definition Map_new : M MapRef :=
  let* r := gets (λ w, length (maps w)) in
  let* _ := modify (λ w, with_maps (maps w ++ [[]]) w) in
  ret r.

Definition Map_entries (r : MapRef) : M (list (Bucket * ArrRef)) :=
  λ w, match maps w !! r with
       | Some es => (Returned es, w)
       | None => (Thrown BadRef, w)
       end.

Fixpoint assoc (b : Bucket) (es : list (Bucket * ArrRef)) : option ArrRef :=
  match es with
  | [] => None
  | (b', a) :: es' => if decide (b = b') then Some a else assoc b es'
  end.

(** [Map.prototype.set] keeps the position of a key that is present and
    appends a new one. *)
Fixpoint assoc_set (b : Bucket) (a : ArrRef) (es : list (Bucket * ArrRef))
  : list (Bucket * ArrRef) :=
  match es with
  | [] => [(b, a)]
  | (b', a') :: es' =>
      if decide (b = b') then (b', a) :: es' else (b', a') :: assoc_set b a es'
  end.

(** [map.get(bucket)]; [None] is [undefined]. *)
Definition Map_get (r : MapRef) (b : Bucket) : M (option ArrRef) :=
  let* es := Map_entries r in
  ret (assoc b es).

(** [map.set(bucket, subscriptions)] *)
Definition Map_set (r : MapRef) (b : Bucket) (a : ArrRef) : M unit :=
  let* es := Map_entries r in
  modify (λ w, with_maps (<[r := assoc_set b a es]> (maps w)) w).

(** [[]] *)
Definition Array_new : M ArrRef :=
  let* a := gets (λ w, length (arrays w)) in
  let* _ := modify (λ w, with_arrays (arrays w ++ [[]]) w) in
  ret a.

Definition Array_read (a : ArrRef) : M (list SubscriptionInfo) :=
  λ w, match arrays w !! a with
       | Some l => (Returned l, w)
       | None => (Thrown BadRef, w)
       end.

(** [subscriptions.push(x)] *)
Definition Array_push (a : ArrRef) (x : SubscriptionInfo) : M unit :=
  let* l := Array_read a in
  modify (λ w, with_arrays (<[a := l ++ [x]]> (arrays w)) w).

(** Registering a resource with the engine returns its handle. *)
Definition declare (r : Resource) : M ResRef :=
  let* h := gets (λ w, length (declared w)) in
  let* _ := modify (λ w, with_declared (declared w ++ [r]) w) in
  ret h.

(** ** The code of the two files *)

(** [let bucketSubscriptionInfos] read and assigned. *)
Definition bucketSubscriptionInfos (m : SrcModule) : M MapRef := gets (reg m).
Definition set_bucketSubscriptionInfos (m : SrcModule) (r : MapRef) : M unit :=
  modify (with_reg m r).

(** Modelled from the spec: [createLambdaFunction] of [./function] is not
    among the sources.  The specification calls it "the
    function-packaging/deployment helper that turns a handler into a
    deployable compute resource": it declares the function resource under
    the name it is given and returns it.  It is never handed the
    subscription arguments. *)
Definition createLambdaFunction (fname : string) (handler : Handler)
    (opts : option ResourceOptions) : M ResRef :=
  declare (LambdaFunction fname handler opts).

(** Modelled from the spec: the constructor of the base class
    [EventSubscription] of [./subscription] is not among the sources.  The
    specification describes "a generic event subscription base carrying the
    permission and target handles": [super(type, name, func, {bucket}, opts)]
    registers the component resource and keeps [func]. *)
Definition EventSubscription_super (type rname : string) (func : ResRef)
    (bucket : Bucket) (opts : option ResourceOptions) : M ResRef :=
  declare (EventSubscription type rname func bucket opts).

(** The suffix [onEvent] gives to the name of the function it creates. *)
Definition funcSuffix (m : SrcModule) : string :=
  match m with
  | bucket_ts => "-bucket-subscription"
  | s3_bucket_ts => "-bucket-event"
  end.

(** [new BucketEventSubscription(name, bucket, func, args, opts)] *)
Definition BucketEventSubscription_new (m : SrcModule) (name : string)
    (bucket : Bucket) (func : ResRef) (args : BucketSubscriptionArgs)
    (opts : option ResourceOptions) : M BucketEventSubscription :=
  let* this := EventSubscription_super
                 "aws-serverless:bucket:BucketEventSubscription"
                 name func bucket opts in
  let* permission := declare (Permission name func "lambda:InvokeFunction"
                                "s3.amazonaws.com"
                                (apply_s3_arn (bucket_id bucket)) this) in
  let* live := bucketSubscriptionInfos m in
  let* found := Map_get live bucket in
  let* subscriptions :=
    match found with
    | Some subscriptions => ret subscriptions
    | None =>
        let* subscriptions := Array_new in
        let* _ := Map_set live bucket subscriptions in
        ret subscriptions
    end in
  let* _ := Array_push subscriptions
              {| name := name;
                 info_events := events args;
                 info_filterPrefix := filterPrefix args;
                 info_filterSuffix := filterSuffix args;
                 lambdaFunctionArn := function_arn func;
                 permission := permission |} in
  ret {| sub_self := this; sub_func := func; sub_permission := permission;
         sub_bucket := bucket |}.

(** [onEvent(name, bucket, handler, args, opts)] *)
Definition onEvent (m : SrcModule) (name : string) (bucket : Bucket)
    (handler : Handler) (args : BucketSubscriptionArgs)
    (opts : option ResourceOptions) : M BucketEventSubscription :=
  let* func := createLambdaFunction (name +:+ funcSuffix m) handler opts in
  BucketEventSubscription_new m name bucket func args opts.

(** ** A call that leaves [args] out *)

(** TypeScript requires the [args] of [onEvent] and of the constructor; a
    caller written in JavaScript, or one that passes a value typed [any],
    can leave them [undefined].  [args.p] on [undefined] raises a
    [TypeError]. *)
Definition property {A B} (args : option A) (p : A → B) : M B :=
  match args with
  | Some a => ret (p a)
  | None => throw TypeError
  end.

(** [new BucketEventSubscription(name, bucket, func, args, opts)] with
    [args] as the caller passed it.  The statements are those of
    [BucketEventSubscription_new]; the fields of [args] are read where the
    source reads them, in the object literal handed to [push], after the
    list of the bucket has been looked up or created and stored. *)
Definition BucketEventSubscription_new_any (m : SrcModule) (name : string)
    (bucket : Bucket) (func : ResRef) (args : option BucketSubscriptionArgs)
    (opts : option ResourceOptions) : M BucketEventSubscription :=
  let* this := EventSubscription_super
                 "aws-serverless:bucket:BucketEventSubscription"
                 name func bucket opts in
  let* permission := declare (Permission name func "lambda:InvokeFunction"
                                "s3.amazonaws.com"
                                (apply_s3_arn (bucket_id bucket)) this) in
  let* live := bucketSubscriptionInfos m in
  let* found := Map_get live bucket in
  let* subscriptions :=
    match found with
    | Some subscriptions => ret subscriptions
    | None =>
        let* subscriptions := Array_new in
        let* _ := Map_set live bucket subscriptions in
        ret subscriptions
    end in
  let* args_events := property args events in
  let* args_filterPrefix := property args filterPrefix in
  let* args_filterSuffix := property args filterSuffix in
  let* _ := Array_push subscriptions
              {| name := name;
                 info_events := args_events;
                 info_filterPrefix := args_filterPrefix;
                 info_filterSuffix := args_filterSuffix;
                 lambdaFunctionArn := function_arn func;
                 permission := permission |} in
  ret {| sub_self := this; sub_func := func; sub_permission := permission;
         sub_bucket := bucket |}.

(** [onEvent(name, bucket, handler, args, opts)] with [args] as the caller
    passed it. *)
Definition onEvent_any (m : SrcModule) (name : string) (bucket : Bucket)
    (handler : Handler) (args : option BucketSubscriptionArgs)
    (opts : option ResourceOptions) : M BucketEventSubscription :=
  let* func := createLambdaFunction (name +:+ funcSuffix m) handler opts in
  BucketEventSubscription_new_any m name bucket func args opts.

(** [args = args || {}] *)
Definition simple_or_empty (args : option SimpleBucketSubscriptionArgs)
  : SimpleBucketSubscriptionArgs :=
  default {| simple_filterPrefix := None; simple_filterSuffix := None |} args.

(** bucket.ts, [onPut] *)
Definition onPut (name : string) (bucket : Bucket) (handler : Handler)
    (args : option SimpleBucketSubscriptionArgs)
    (opts : option ResourceOptions) : M BucketEventSubscription :=
  let args := simple_or_empty args in
  let argsCopy := {| filterPrefix := simple_filterPrefix args;
                     filterSuffix := simple_filterSuffix args;
                     events := ["s3:ObjectCreated:*"] |} in
  onEvent bucket_ts (name +:+ "-put") bucket handler argsCopy opts.

(** bucket.ts, [onDelete] *)
Definition onDelete (name : string) (bucket : Bucket) (handler : Handler)
    (args : option SimpleBucketSubscriptionArgs)
    (opts : option ResourceOptions) : M BucketEventSubscription :=
  let args := simple_or_empty args in
  let argsCopy := {| filterPrefix := simple_filterPrefix args;
                     filterSuffix := simple_filterSuffix args;
                     events := ["s3:ObjectRemoved:*"] |} in
  onEvent bucket_ts (name +:+ "-delete") bucket handler argsCopy opts.

(** [x || d] on an optional string: [undefined] and the empty string are
    falsy. *)
Definition js_or (x : option string) (d : string) : string :=
  match x with
  | None => d
  | Some s => if decide (s = "") then d else s
  end.

(** s3/bucket.ts, [onObjectCreated].  An omitted [args] is [{}], whose
    fields are all [undefined].  The source stores [args.event || "*"] back
    into [args.event]; it is the only use of that field, so the value is
    kept in a local here. *)
Definition onObjectCreated (name : string) (bucket : Bucket)
    (handler : Handler) (args : option ObjectCreatedSubscriptionArgs)
    (opts : option ResourceOptions) : M BucketEventSubscription :=
  let args := default {| oc_filterPrefix := None; oc_filterSuffix := None;
                         oc_event := None |} args in
  let event := js_or (oc_event args) "*" in
  let argsCopy := {| filterPrefix := oc_filterPrefix args;
                     filterSuffix := oc_filterSuffix args;
                     events := ["s3:ObjectCreated:" +:+ event] |} in
  onEvent s3_bucket_ts (name +:+ "-object-created") bucket handler argsCopy opts.

(** s3/bucket.ts, [onObjectRemoved] *)
Definition onObjectRemoved (name : string) (bucket : Bucket)
    (handler : Handler) (args : option ObjectRemovedSubscriptionArgs)
    (opts : option ResourceOptions) : M BucketEventSubscription :=
  let args := default {| or_filterPrefix := None; or_filterSuffix := None;
                         or_event := None |} args in
  let event := js_or (or_event args) "*" in
  let argsCopy := {| filterPrefix := or_filterPrefix args;
                     filterSuffix := or_filterSuffix args;
                     events := ["s3:ObjectRemoved:" +:+ event] |} in
  onEvent s3_bucket_ts (name +:+ "-object-removed") bucket handler argsCopy opts.

(** [for (const x of l) body(x)] *)
Fixpoint for_of {A} (l : list A) (body : A → M unit) : M unit :=
  match l with
  | [] => ret tt
  | x :: l' => let* _ := body x in for_of l' body
  end.

(** [subscriptions[0].name]: reading [name] off [undefined] raises a
    [TypeError]. *)
Definition first_name (subscriptions : list SubscriptionInfo) : M string :=
  match subscriptions with
  | [] => throw TypeError
  | s :: _ => ret (name s)
  end.

Definition entry_of (subscription : SubscriptionInfo) : LambdaFunctionEntry :=
  {| lf_events := info_events subscription;
     lf_filterPrefix := info_filterPrefix subscription;
     lf_filterSuffix := info_filterSuffix subscription;
     lf_lambdaFunctionArn := lambdaFunctionArn subscription |}.

(** The body of the loop of the [beforeExit] handler. *)
Definition declare_notification (entry : Bucket * ArrRef) : M unit :=
  let '(bucket, subscriptions) := entry in
  let* subscriptions := Array_read subscriptions in
  let permissions := permission <$> subscriptions in
  let* rname := first_name subscriptions in
  let* _ := declare (BucketNotification rname (bucket_id bucket)
                       (entry_of <$> subscriptions) bucket permissions) in
  ret tt.

(** [process.on("beforeExit", () => { ... })] of module [m] *)
Definition beforeExit (m : SrcModule) : M unit :=
  let* copy := bucketSubscriptionInfos m in
  let* fresh := Map_new in
  let* _ := set_bucketSubscriptionInfos m fresh in
  let* entries := Map_entries copy in
  for_of entries declare_notification.

(** ** The handler taken apart, to interleave it with subscribe calls *)

(** An activation of the handler stopped inside its loop: its local [copy]
    and the number of entries the [Map] iterator has handed out. *)
Record Pass := {
  copy : MapRef;
  pos : nat;
}.

(** The handler up to its loop: [copy] is taken and the module variable is
    assigned a new [Map]. *)
Definition pass_begin (m : SrcModule) : M Pass :=
  let* copy := bucketSubscriptionInfos m in
  let* fresh := Map_new in
  let* _ := set_bucketSubscriptionInfos m fresh in
  ret {| copy := copy; pos := 0 |}.

(** One turn of the loop.  A [Map] iterator is live: it reads the entries the
    [Map] has at the time of the turn.  [None] means the loop is over. *)
Definition pass_next (p : Pass) : M (option Pass) :=
  let* entries := Map_entries (copy p) in
  match entries !! pos p with
  | None => ret None
  | Some entry =>
      let* _ := declare_notification entry in
      ret (Some {| copy := copy p; pos := S (pos p) |})
  end.

(** A call of the subscribe entry point of one of the files. *)
Record Call := {
  c_module : SrcModule;
  c_name : string;
  c_bucket : Bucket;
  c_handler : Handler;
  c_args : BucketSubscriptionArgs;
  c_opts : option ResourceOptions;
}.

Definition call (c : Call) : M BucketEventSubscription :=
  onEvent (c_module c) (c_name c) (c_bucket c) (c_handler c) (c_args c)
    (c_opts c).

(** Calls one after the other, with the objects they return. *)
Fixpoint calls (cs : list Call) : M (list BucketEventSubscription) :=
  match cs with
  | [] => ret []
  | c :: cs' =>
      let* s := call c in
      let* ss := calls cs' in
      ret (s :: ss)
  end.

(** What happens while a pass is open: a subscribe call runs, or the loop
    of the pass takes one more turn. *)
Inductive Action :=
| Subscribe (c : Call)
| Turn.

Definition subscribed (tr : list Action) : list Call :=
  omap (λ a, match a with Subscribe c => Some c | Turn => None end) tr.

Fixpoint interleave (tr : list Action) (p : option Pass)
  : M (option Pass * list BucketEventSubscription) :=
  match tr with
  | [] => ret (p, [])
  | Subscribe c :: tr' =>
      let* s := call c in
      let* rest := interleave tr' p in
      ret (rest.1, s :: rest.2)
  | Turn :: tr' =>
      match p with
      | None => interleave tr' None
      | Some p => let* p' := pass_next p in interleave tr' p'
      end
  end.

(** ** Program runs *)

(** The states a program can be in between two of its steps: a subscribe
    call or a run of one of the two handlers. *)
Inductive Reachable : World → Prop :=
| Reachable_init : Reachable init
| Reachable_onEvent w c :
    Reachable w → Reachable (call c w).2
| Reachable_beforeExit w m :
    Reachable w → Reachable (beforeExit m w).2.

(** A run written down: the steps in order. *)
Inductive Step :=
| DoCall (c : Call)
| Fire (m : SrcModule).

Definition step (s : Step) : M unit :=
  match s with
  | DoCall c => let* _ := call c in ret tt
  | Fire m => beforeExit m
  end.

Definition run (tr : list Step) : M unit := for_of tr step.

(** ** What a registry holds *)

(** The contents of a [Map] object: for each key, in insertion order, the
    array stored under it. *)
Abbreviation Registry := (list (Bucket * list SubscriptionInfo)).

(** An entry of a [Map] with the array read through its reference. *)
Definition deref (h : list (list SubscriptionInfo)) (e : Bucket * ArrRef)
  : Bucket * list SubscriptionInfo :=
  (e.1, default [] (h !! e.2)).

Definition contents (w : World) (r : MapRef) : Registry :=
  match maps w !! r with
  | Some es => deref (arrays w) <$> es
  | None => []
  end.

Definition registered (m : SrcModule) (w : World) : Registry :=
  contents w (reg m w).

(** The specification's [register(bucket, request)]: append to the list of
    the bucket, creating the list if absent. *)
Fixpoint register (b : Bucket) (s : SubscriptionInfo) (r : Registry)
  : Registry :=
  match r with
  | [] => [(b, [s])]
  | (b', l) :: r' =>
      if decide (b = b') then (b', l ++ [s]) :: r'
      else (b', l) :: register b s r'
  end.

Definition register_all (l : list (Bucket * SubscriptionInfo)) (r : Registry)
  : Registry :=
  foldl (λ r e, register e.1 e.2 r) r l.

(** The subscription a call leaves in the registry, given the object the
    call returned. *)
Definition info_of (c : Call) (s : BucketEventSubscription)
  : SubscriptionInfo :=
  {| name := c_name c;
     info_events := events (c_args c);
     info_filterPrefix := filterPrefix (c_args c);
     info_filterSuffix := filterSuffix (c_args c);
     lambdaFunctionArn := function_arn (sub_func s);
     permission := sub_permission s |}.

Definition request_of (cs : Call * BucketEventSubscription)
  : Bucket * SubscriptionInfo :=
  (c_bucket cs.1, info_of cs.1 cs.2).

(** The calls of module [m] among [cs], each with the object it returned. *)
Definition requests (m : SrcModule) (cs : list Call)
    (ss : list BucketEventSubscription) : list (Bucket * SubscriptionInfo) :=
  request_of <$> filter (λ cs, c_module cs.1 = m) (zip cs ss).

(** The aggregate resource for one bucket and its list of subscriptions. *)
Definition aggregate (e : Bucket * list SubscriptionInfo) : Resource :=
  BucketNotification (default "" (name <$> head e.2)) (bucket_id e.1)
    (entry_of <$> e.2) e.1 (permission <$> e.2).

(** The bucket an aggregate resource is declared for. *)
Definition notification_bucket (r : Resource) : option Bucket :=
  match r with
  | BucketNotification _ _ _ parent _ => Some parent
  | _ => None
  end.

Definition notifications (d : list Resource) : list Resource :=
  filter (λ r, is_Some (notification_bucket r)) d.

Definition notifications_for (b : Bucket) (d : list Resource) : list Resource :=
  filter (λ r, notification_bucket r = Some b) d.

(** The resources declared on the way from [w] to [w']. *)
Definition declared_since (w w' : World) : list Resource :=
  drop (length (declared w)) (declared w').

(** The requests for bucket [b] among [l], in order. *)
Definition requests_for (b : Bucket) (l : list (Bucket * SubscriptionInfo))
  : list SubscriptionInfo :=
  (filter (λ e, e.1 = b) l).*2.

(** The list a registry holds for a bucket, and the entries of a registry
    that are for a bucket. *)
Fixpoint lookup_reg (b : Bucket) (r : Registry)
  : option (list SubscriptionInfo) :=
  match r with
  | [] => None
  | (b', l) :: r' => if decide (b = b') then Some l else lookup_reg b r'
  end.

Definition pending (b : Bucket) (r : Registry) : Registry :=
  filter (λ e, e.1 = b) r.

(** What a subscribe call declares, returns and registers when the log of
    declared resources has length [n]. *)
Definition resources_of_call (m : SrcModule) (name : string) (bucket : Bucket)
    (handler : Handler) (opts : option ResourceOptions) (n : nat)
  : list Resource :=
  [LambdaFunction (name +:+ funcSuffix m) handler opts;
   EventSubscription "aws-serverless:bucket:BucketEventSubscription"
     name n bucket opts;
   Permission name n "lambda:InvokeFunction" "s3.amazonaws.com"
     (apply_s3_arn (bucket_id bucket)) (S n)].

Definition object_of_call (bucket : Bucket) (n : nat) : BucketEventSubscription :=
  {| sub_self := S n; sub_func := n; sub_permission := S (S n);
     sub_bucket := bucket |}.

Definition info_of_call (name : string) (args : BucketSubscriptionArgs)
    (n : nat) : SubscriptionInfo :=
  {| name := name; info_events := events args;
     info_filterPrefix := filterPrefix args;
     info_filterSuffix := filterSuffix args;
     lambdaFunctionArn := function_arn n; permission := S (S n) |}.

(** The permission resource a call declares, given the object the call
    returned. *)
Definition permission_of (c : Call) (s : BucketEventSubscription) : Resource :=
  Permission (c_name c) (sub_func s) "lambda:InvokeFunction"
    "s3.amazonaws.com" (apply_s3_arn (bucket_id (c_bucket c))) (sub_self s).

(** The state after the first three statements of the handler. *)
Definition swapped (m : SrcModule) (w : World) : World :=
  with_reg m (length (maps w)) (with_maps (maps w ++ [[]]) w).

(** What an open pass still has to declare: the entries of its [copy] the
    iterator has not reached. *)
Definition remaining (w : World) (p : option Pass) : Registry :=
  match p with
  | Some p => drop (pos p) (contents w (copy p))
  | None => []
  end.

(** ** Heap invariant *)

(** Every module variable holds an allocated [Map], the two hold different
    ones; a [Map] has each key once; an array belongs to one entry of one
    [Map]; and every array a [Map] holds is allocated and has at least one
    element. *)
Record wf (w : World) : Prop := {
  wf_reg : ∀ m, reg m w < length (maps w);
  wf_reg_ne : reg bucket_ts w ≠ reg s3_bucket_ts w;
  wf_keys : ∀ r es, maps w !! r = Some es → NoDup es.*1;
  wf_owned : NoDup (concat (maps w)).*2;
  wf_arrays : ∀ a, a ∈ (concat (maps w)).*2 →
              ∃ l, arrays w !! a = Some l ∧ l ≠ [];
}.

(** The [copy] of an open pass is an allocated [Map] that no module
    variable refers to any more. *)
Definition pass_ok (w : World) (p : option Pass) : Prop :=
  match p with
  | Some p => copy p < length (maps w) ∧ ∀ m, copy p ≠ reg m w
  | None => True
  end.

(** ** Statements about the helpers *)

(** [helper] returns and leaves in the registry of [m], at the end of the
    list of [b], a request with the given name, events and filters. *)
Definition registers_as (helper : M BucketEventSubscription) (m : SrcModule)
    (b : Bucket) (rname : string) (evs : list string) (fp fs : option string)
  : Prop :=
  ∀ w, Reachable w →
    ∃ s w', helper w = (Returned s, w')
      ∧ registered m w'
        = register b {| name := rname; info_events := evs;
                        info_filterPrefix := fp; info_filterSuffix := fs;
                        lambdaFunctionArn := function_arn (sub_func s);
                        permission := sub_permission s |}
            (registered m w).

(** When [helper] is the first to register for [b], whatever calls follow,
    the aggregate the next pass declares for [b] is named [rname]. *)
Definition names_first_aggregate (helper : M BucketEventSubscription)
    (m : SrcModule) (b : Bucket) (rname : string) : Prop :=
  ∀ w rest, Reachable w → b ∉ (registered m w).*1 →
    ∃ s w1 ss w2 w3 lfs deps,
      helper w = (Returned s, w1)
      ∧ calls rest w1 = (Returned ss, w2)
      ∧ beforeExit m w2 = (Returned (), w3)
      ∧ notifications_for b (declared_since w w3)
        = [BucketNotification rname (bucket_id b) lfs b deps].

(** The invariant of the specification: over a whole run, at most one
    aggregate has been declared for any bucket. *)
Definition one_aggregate_per_bucket_per_run : Prop :=
  ∀ w b, Reachable w → (length (notifications_for b (declared w)) ≤ 1)%nat.

(** ** Sample inputs *)

Definition B1 : Bucket := BucketObj 1.
Definition B2 : Bucket := BucketObj 2.
Definition handler0 : Handler := HandlerFn 0.

(** The scenario of the specification: ["a"] asks for creations and ["b"]
    for removals, both on [B1]. *)
Definition call_a : Call :=
  {| c_module := bucket_ts; c_name := "a"; c_bucket := B1;
     c_handler := handler0;
     c_args := {| events := ["s3:ObjectCreated:*"]; filterPrefix := None;
                  filterSuffix := None |};
     c_opts := None |}.

Definition call_b : Call :=
  {| c_module := bucket_ts; c_name := "b"; c_bucket := B1;
     c_handler := handler0;
     c_args := {| events := ["s3:ObjectRemoved:*"]; filterPrefix := None;
                  filterSuffix := None |};
     c_opts := None |}.

(** A call on another bucket. *)
Definition call_c : Call :=
  {| c_module := bucket_ts; c_name := "c"; c_bucket := B2;
     c_handler := handler0;
     c_args := {| events := ["s3:ObjectCreated:Put"];
                  filterPrefix := Some "logs/"; filterSuffix := None |};
     c_opts := None |}.

(** A call whose list of events is empty. *)
Definition call_x : Call :=
  {| c_module := bucket_ts; c_name := "x"; c_bucket := B1;
     c_handler := handler0;
     c_args := {| events := []; filterPrefix := None; filterSuffix := None |};
     c_opts := None |}.

(** A subscription arrives after the handler has run, and the handler runs
    again. *)
Definition late_registration : list Step :=
  [DoCall call_a; Fire bucket_ts; DoCall call_b; Fire bucket_ts].

(** One bucket subscribed through both files, then one firing of the hook:
    both handlers run. *)
Definition both_files : M unit :=
  let* _ := onPut "a" B1 handler0 None None in
  let* _ := onObjectRemoved "b" B1 handler0 None None in
  let* _ := beforeExit bucket_ts in
  beforeExit s3_bucket_ts.

(** The state after ["a"] on [B1] and ["c"] on [B2] have subscribed. *)
Definition two_pending : World := (call call_c (call call_a init).2).2.

(** A program that calls [onEvent] of bucket.ts on [B1] without [args],
    catches the exception, subscribes ["c"] to [B2] and runs to its end. *)
Definition omitted_args : World :=
  (onEvent_any bucket_ts "x" B1 handler0 None None init).2.
Definition omitted_args_then_c : World := (call call_c omitted_args).2.

(** A pass with calls between its turns: ["b"] subscribes to [B1] after the
    handler has taken its snapshot, ["x"] after two turns of the loop. *)
Definition busy_pass : list Action :=
  [Subscribe call_b; Turn; Turn; Subscribe call_x; Turn].

(** ** Further notions used to describe runs *)

(** A list without its repetitions, each element kept where it first
    occurs. *)
Fixpoint nub (l : list Bucket) : list Bucket :=
  match l with
  | [] => []
  | b :: l' => b :: filter (λ b', b' ≠ b) (nub l')
  end.

(** The buckets the calls made through [m] are for, in call order. *)
Definition buckets_of (m : SrcModule) (cs : list Call) : list Bucket :=
  c_bucket <$> filter (λ c, c_module c = m) cs.

(** The parents of the aggregates among [d], in order. *)
Definition parents (d : list Resource) : list Bucket :=
  omap notification_bucket d.

(** A registered request is wired in the log [d] for bucket [b]: its
    permission handle designates a permission that lets the bucket invoke a
    function, that function has been declared, and the request carries the
    ARN of that function. *)
Definition wired (d : list Resource) (b : Bucket) (s : SubscriptionInfo)
  : Prop :=
  ∃ f,
    lambdaFunctionArn s = function_arn f
    ∧ d !! permission s
      = Some (Permission (name s) f "lambda:InvokeFunction"
                "s3.amazonaws.com" (apply_s3_arn (bucket_id b)) (S f))
    ∧ ∃ fname h opts, d !! f = Some (LambdaFunction fname h opts).

Definition registry_wired (d : list Resource) (r : Registry) : Prop :=
  Forall (λ e, e.2 ≠ [] ∧ Forall (wired d e.1) e.2) r.

(** An entry of [lambdaFunctions] and the handle at the same position of
    [dependsOn] belong together: the handle designates a permission for the
    bucket [parent] and for a declared function, whose ARN the entry
    carries. *)
Definition entry_wired (d : list Resource) (parent : Bucket)
    (lf : LambdaFunctionEntry) (dep : ResRef) : Prop :=
  ∃ pname f this,
    d !! dep = Some (Permission pname f "lambda:InvokeFunction"
                       "s3.amazonaws.com" (apply_s3_arn (bucket_id parent))
                       this)
    ∧ lf_lambdaFunctionArn lf = function_arn f
    ∧ ∃ fname h opts, d !! f = Some (LambdaFunction fname h opts).

(** What the log [d] guarantees of an aggregate it contains. *)
Definition well_wired (d : list Resource) (r : Resource) : Prop :=
  match r with
  | BucketNotification rname bucket lfs parent deps =>
      bucket = bucket_id parent
      ∧ (∃ first f this,
           head deps = Some first
           ∧ d !! first
             = Some (Permission rname f "lambda:InvokeFunction"
                       "s3.amazonaws.com" (apply_s3_arn (bucket_id parent))
                       this))
      ∧ Forall2 (entry_wired d parent) lfs deps
  | _ => True
  end.

(** The steps of a written-down run that subscribe to bucket [b]. *)
Definition subscribes_to (b : Bucket) (s : Step) : Prop :=
  match s with
  | DoCall c => c_bucket c = b
  | Fire _ => False
  end.

(** The type and the logical name under which a resource is declared. *)
Inductive Kind := KFunction | KSubscription | KPermission | KNotification.

Definition type_and_name (r : Resource) : Kind * string :=
  match r with
  | LambdaFunction fname _ _ => (KFunction, fname)
  | EventSubscription _ rname _ _ _ => (KSubscription, rname)
  | Permission rname _ _ _ _ _ => (KPermission, rname)
  | BucketNotification rname _ _ _ _ => (KNotification, rname)
  end.

(** The four helpers called one after the other with one [name] on one
    bucket. *)
Definition all_helpers (name : string) (b : Bucket) (h : Handler)
    (put del : option SimpleBucketSubscriptionArgs)
    (created : option ObjectCreatedSubscriptionArgs)
    (removed : option ObjectRemovedSubscriptionArgs)
    (opts : option ResourceOptions) : M unit :=
  let* _ := onPut name b h put opts in
  let* _ := onDelete name b h del opts in
  let* _ := onObjectCreated name b h created opts in
  let* _ := onObjectRemoved name b h removed opts in
  ret tt.

(** Further sample inputs: a call made through s3/bucket.ts, and a run that
    never subscribes to [B2]. *)
Definition call_d : Call :=
  {| c_module := s3_bucket_ts; c_name := "d"; c_bucket := B1;
     c_handler := handler0;
     c_args := {| events := ["s3:ObjectRemoved:Delete"];
                  filterPrefix := None; filterSuffix := Some ".tmp" |};
     c_opts := None |}.

Definition run_without_B2 : list Step :=
  [DoCall call_a; DoCall call_d; Fire bucket_ts; DoCall call_b;
   Fire s3_bucket_ts; Fire bucket_ts].

(** The handles of the permissions in a log: their positions. *)
Definition is_permission (r : Resource) : bool :=
  match r with
  | Permission _ _ _ _ _ _ => true
  | _ => false
  end.

Fixpoint handles_from (i : nat) (d : list Resource) : list ResRef :=
  match d with
  | [] => []
  | r :: d' =>
      (if is_permission r then [i] else []) ++ handles_from (S i) d'
  end.

Definition permission_handles (d : list Resource) : list ResRef :=
  handles_from 0 d.

(** The permission handles the aggregates of a log depend on, aggregate
    after aggregate, and the permission handles of the requests that wait in
    the registry of a file. *)
Definition dependsOn_of (r : Resource) : list ResRef :=
  match r with
  | BucketNotification _ _ _ _ deps => deps
  | _ => []
  end.

Definition flushed (d : list Resource) : list ResRef :=
  concat (dependsOn_of <$> d).

Definition waiting (m : SrcModule) (w : World) : list ResRef :=
  permission <$> concat (registered m w).*2.

(** * Proofs *)

(** Unfolding the operations of [M]. *)
Ltac unfold_M :=
  unfold bind, ret, throw, gets, modify in *.

(** ** Association lists and the heap of [Map] objects *)

Lemma assoc_None b es : assoc b es = None ↔ b ∉ es.*1.
Proof.
  induction es as [|[b' a] es IH]; simpl.
  - split; [intros _; apply not_elem_of_nil | done].
  - case_decide; subst.
    + split; [done | intros []; left].
    + rewrite IH, not_elem_of_cons. tauto.
Qed.

Lemma assoc_Some b a es : assoc b es = Some a → (b, a) ∈ es.
Proof.
  induction es as [|[b' a'] es IH]; simpl; [done|].
  case_decide; subst.
  - intros [= ->]. left.
  - intros. right. auto.
Qed.

Lemma assoc_set_absent b a es :
  assoc b es = None → assoc_set b a es = es ++ [(b, a)].
Proof.
  induction es as [|[b' a'] es IH]; simpl; [done|].
  case_decide; [done|]. intros. by rewrite IH.
Qed.

Lemma concat_insert_snoc {A} (l : list (list A)) i es x :
  l !! i = Some es → concat (<[i := es ++ [x]]> l) ≡ₚ x :: concat l.
Proof.
  revert i. induction l as [|y l IH]; intros [|i]; simpl; try done.
  - intros [= ->]. rewrite <- app_assoc. simpl.
    rewrite <- Permutation_middle. done.
  - intros H. rewrite (IH _ H). by rewrite <- Permutation_middle.
Qed.

Lemma elem_of_concat_lookup {A} (l : list (list A)) i es x :
  l !! i = Some es → x ∈ es → x ∈ concat l.
Proof.
  intros Hi Hx. apply list_elem_of_In, in_concat. exists es.
  split; [apply list_elem_of_In; by eapply list_elem_of_lookup_2
         | by apply list_elem_of_In].
Qed.

(** Two different [Map] objects never hold the same array. *)
Lemma owned_disjoint (l : list (list (Bucket * ArrRef))) i j es es' a :
  NoDup (concat l).*2 → l !! i = Some es → l !! j = Some es' → i ≠ j →
  a ∈ es.*2 → a ∉ es'.*2.
Proof.
  revert i j. induction l as [|y l IH]; intros i j; [done|].
  simpl. rewrite fmap_app. intros [Hy [Hd Hl]]%NoDup_app.
  destruct i as [|i], j as [|j]; simpl; try done.
  - intros [= ->] Hj _ Ha Ha'. apply (Hd a Ha).
    apply list_elem_of_fmap in Ha' as [e [-> He]].
    apply list_elem_of_fmap. exists e. split; [done|].
    by eapply elem_of_concat_lookup.
  - intros Hi [= ->] _ Ha Ha'. apply (Hd a Ha').
    apply list_elem_of_fmap in Ha as [e [-> He]].
    apply list_elem_of_fmap. exists e. split; [done|].
    by eapply elem_of_concat_lookup.
  - intros Hi Hj Hne. apply (IH i j); auto.
Qed.

Lemma owned_within (l : list (list (Bucket * ArrRef))) i es :
  NoDup (concat l).*2 → l !! i = Some es → NoDup es.*2.
Proof.
  revert i. induction l as [|y l IH]; intros i; [done|].
  simpl. rewrite fmap_app. intros [Hy [Hd Hl]]%NoDup_app.
  destruct i as [|i]; simpl; [by intros [= ->] | by apply IH].
Qed.

(** ** What a subscribe call does to the state *)

Lemma reg_with_arrays m h w : reg m (with_arrays h w) = reg m w.
Proof. by destruct m. Qed.
Lemma reg_with_maps m h w : reg m (with_maps h w) = reg m w.
Proof. by destruct m. Qed.
Lemma reg_with_declared m d w : reg m (with_declared d w) = reg m w.
Proof. by destruct m. Qed.
Lemma reg_with_reg m r w : reg m (with_reg m r w) = r.
Proof. by destruct m. Qed.
Lemma reg_with_reg_ne m m' r w : m ≠ m' → reg m' (with_reg m r w) = reg m' w.
Proof. by destruct m, m'. Qed.
Lemma maps_with_reg m r w : maps (with_reg m r w) = maps w.
Proof. by destruct m. Qed.
Lemma arrays_with_reg m r w : arrays (with_reg m r w) = arrays w.
Proof. by destruct m. Qed.
Lemma declared_with_reg m r w : declared (with_reg m r w) = declared w.
Proof. by destruct m. Qed.

Lemma onEvent_existing m name b h args opts w es a l :
  maps w !! reg m w = Some es → assoc b es = Some a →
  arrays w !! a = Some l →
  let n := length (declared w) in
  onEvent m name b h args opts w =
    (Returned (object_of_call b n),
     with_arrays (<[a := l ++ [info_of_call name args n]]> (arrays w))
       (with_declared (declared w ++ resources_of_call m name b h opts n) w)).
Proof.
  intros Hes Ha Hl n.
  unfold onEvent, createLambdaFunction, BucketEventSubscription_new,
    EventSubscription_super, declare, bucketSubscriptionInfos, Map_get,
    Map_entries, Array_push, Array_read.
  unfold_M. simpl. rewrite !reg_with_declared, Hes, Ha. simpl.
  rewrite Hl. simpl. rewrite !length_app. simpl.
  rewrite <- !app_assoc. simpl.
  replace (length (declared w) + 1) with (S n) by (unfold n; lia).
  replace (S n + 1) with (S (S n)) by lia.
  done.
Qed.

Lemma onEvent_absent m name b h args opts w es :
  maps w !! reg m w = Some es → assoc b es = None →
  let n := length (declared w) in
  onEvent m name b h args opts w =
    (Returned (object_of_call b n),
     with_arrays (arrays w ++ [[info_of_call name args n]])
       (with_maps (<[reg m w := es ++ [(b, length (arrays w))]]> (maps w))
          (with_declared (declared w ++ resources_of_call m name b h opts n)
             w))).
Proof.
  intros Hes Ha n.
  unfold onEvent, createLambdaFunction, BucketEventSubscription_new,
    EventSubscription_super, declare, bucketSubscriptionInfos, Map_get,
    Map_set, Array_new, Map_entries, Array_push, Array_read.
  unfold_M. simpl. rewrite !reg_with_declared, Hes, Ha. simpl.

  rewrite ?reg_with_declared, ?Hes. simpl.
  rewrite list_lookup_middle by done. simpl.
  rewrite assoc_set_absent by done.
  rewrite !length_app. simpl. rewrite <- !app_assoc. simpl.
  replace (length (declared w) + 1) with (S n) by (unfold n; lia).
  replace (S n + 1) with (S (S n)) by lia.
  rewrite insert_app_r_alt by done. rewrite Nat.sub_diag. done.
Qed.

Lemma contents_lookup w r es :
  maps w !! r = Some es → contents w r = deref (arrays w) <$> es.
Proof. unfold contents. by intros ->. Qed.

Lemma deref_Some h b a l : h !! a = Some l → deref h (b, a) = (b, l).
Proof. unfold deref. simpl. by intros ->. Qed.

Lemma deref_unchanged h h' (es : list (Bucket * ArrRef)) :
  (∀ a, a ∈ es.*2 → h' !! a = h !! a) → deref h' <$> es = deref h <$> es.
Proof.
  intros H. apply list_fmap_ext. intros i [b a] Hi. unfold deref. simpl.
  rewrite H; [done|]. apply list_elem_of_fmap. exists (b, a).
  split; [done|]. by eapply list_elem_of_lookup_2.
Qed.

Lemma contents_ext w w' r :
  maps w' !! r = maps w !! r →
  (∀ es a, maps w !! r = Some es → a ∈ es.*2 →
           arrays w' !! a = arrays w !! a) →
  contents w' r = contents w r.
Proof.
  intros Hm Ha. unfold contents. rewrite Hm.
  destruct (maps w !! r) as [es|] eqn:Hes; [|done].
  apply deref_unchanged. intros a. by apply Ha.
Qed.

Lemma register_absent b x (r : Registry) :
  b ∉ r.*1 → register b x r = r ++ [(b, [x])].
Proof.
  induction r as [|[b' l] r IH]; simpl; [done|].
  rewrite not_elem_of_cons. intros [? ?]. case_decide; [done|].
  by rewrite IH.
Qed.

Lemma deref_fst h (es : list (Bucket * ArrRef)) : (deref h <$> es).*1 = es.*1.
Proof. rewrite <- list_fmap_compose. done. Qed.

Lemma deref_push_existing h (es : list (Bucket * ArrRef)) b a l x :
  NoDup es.*2 → assoc b es = Some a → h !! a = Some l →
  deref (<[a := l ++ [x]]> h) <$> es = register b x (deref h <$> es).
Proof.
  intros Hnd Ha Hl. induction es as [|[b' a'] es IH]; [done|].
  rewrite fmap_cons in Hnd. apply NoDup_cons in Hnd as [Ha' Hnd].
  rewrite !fmap_cons. simpl in Ha. unfold deref at 1 3. simpl.
  case_decide; subst.
  - injection Ha as ->.
    rewrite list_lookup_insert_eq by (by eapply lookup_lt_Some).
    rewrite Hl. simpl. f_equal.
    apply deref_unchanged. intros a0 Ha0.
    apply list_lookup_insert_ne. by intros ->.
  - rewrite IH by done. f_equal.
    rewrite list_lookup_insert_ne; [done|]. intros ->. apply Ha'.
    apply assoc_Some in Ha. apply list_elem_of_fmap. by exists (b, a').
Qed.

Lemma deref_push_absent h (es : list (Bucket * ArrRef)) b x :
  assoc b es = None → (∀ a, a ∈ es.*2 → a < length h) →
  deref (h ++ [[x]]) <$> (es ++ [(b, length h)])
  = register b x (deref h <$> es).
Proof.
  intros Hb Hv. rewrite register_absent
    by (rewrite deref_fst; by apply assoc_None).
  rewrite fmap_app. f_equal.
  - apply deref_unchanged. intros a Ha. apply lookup_app_l. auto.
  - simpl. unfold deref. simpl. by rewrite list_lookup_middle.
Qed.

(** ** The invariant holds along every run *)

Lemma wf_init : wf init.
Proof.
  split; simpl.
  - intros []; simpl; lia.
  - done.
  - intros [|[|r]] es; simpl; intros [= <-]; constructor.
  - constructor.
  - intros a Ha. by apply elem_of_nil in Ha.
Qed.

Lemma wf_live w m : wf w → ∃ es, maps w !! reg m w = Some es.
Proof. intros H. apply lookup_lt_is_Some_2, H. Qed.

Lemma wf_live_array w r es b a :
  wf w → maps w !! r = Some es → (b, a) ∈ es →
  ∃ l, arrays w !! a = Some l ∧ l ≠ [].
Proof.
  intros H Hr Ha. apply (wf_arrays w H). apply list_elem_of_fmap.
  exists (b, a). split; [done|]. by eapply elem_of_concat_lookup.
Qed.

Lemma wf_valid w r es a :
  wf w → maps w !! r = Some es → a ∈ es.*2 → a < length (arrays w).
Proof.
  intros H Hr [[b a'] [-> Ha]]%list_elem_of_fmap.
  destruct (wf_live_array w r es b a' H Hr Ha) as [l [Hl _]].
  by eapply lookup_lt_Some.
Qed.

(** The effect of a subscribe call: it returns, declares the function, the
    component and the permission, appends its request to the list of its
    bucket in the registry of its file, and leaves every other [Map] as it
    was. *)
Lemma onEvent_spec m name b h args opts w :
  wf w →
  let n := length (declared w) in
  ∃ w', onEvent m name b h args opts w = (Returned (object_of_call b n), w')
    ∧ wf w'
    ∧ declared w' = declared w ++ resources_of_call m name b h opts n
    ∧ registered m w'
      = register b (info_of_call name args n) (registered m w)
    ∧ (∀ m', reg m' w' = reg m' w)
    ∧ length (maps w') = length (maps w)
    ∧ (∀ r, r ≠ reg m w → contents w' r = contents w r).
Proof.
  intros Hwf n. destruct (wf_live w m Hwf) as [es Hes].
  destruct (assoc b es) as [a|] eqn:Ha.
  - destruct (wf_live_array w _ es b a Hwf Hes (assoc_Some _ _ _ Ha))
      as [l [Hl Hne]].
    eexists. split; [by eapply onEvent_existing|].
    assert (Hreg : ∀ m', reg m' (with_arrays
              (<[a := l ++ [info_of_call name args n]]> (arrays w))
              (with_declared
                 (declared w ++ resources_of_call m name b h opts n) w))
              = reg m' w) by (by intros []).
    split; [|split; [done|split; [|split; [done|split; [done|]]]]].
    + split.
      * intros m'. rewrite Hreg. apply Hwf.
      * rewrite !Hreg. apply Hwf.
      * apply Hwf.
      * apply Hwf.
      * simpl. intros a' Ha'. destruct (decide (a' = a)) as [->|Hn].
        -- exists (l ++ [info_of_call name args n]).
           rewrite list_lookup_insert_eq by (by eapply lookup_lt_Some).
           split; [done|]. by destruct l.
        -- rewrite list_lookup_insert_ne by done. by apply Hwf.
    + unfold registered. rewrite Hreg.
      rewrite (contents_lookup _ _ es) by done.
      rewrite (contents_lookup w _ es) by done. simpl.
      apply deref_push_existing; [|done|done].
      eapply owned_within; [apply Hwf|done].
    + intros r Hr. apply contents_ext; [done|]. intros es' a' Hes' Ha'.
      simpl. apply list_lookup_insert_ne. intros <-.
      eapply (owned_disjoint (maps w) (reg m w) r es es' a);
        [apply Hwf|done|done|done| |done].
      apply assoc_Some in Ha. apply list_elem_of_fmap. by exists (b, a).
  - eexists. split; [by eapply onEvent_absent|].
    set (x := info_of_call name args n).
    set (w' := with_arrays _ _).
    assert (Hreg : ∀ m', reg m' w' = reg m' w) by (by intros []).
    assert (Hperm : (concat (maps w')).*2
                    ≡ₚ length (arrays w) :: (concat (maps w)).*2).
    { simpl. rewrite concat_insert_snoc by done. done. }
    split; [|split; [done|split; [|split; [done|split]]]].
    + split.
      * intros m'. rewrite Hreg. simpl. rewrite length_insert. apply Hwf.
      * rewrite !Hreg. apply Hwf.
      * simpl. intros r es' Hr.
        destruct (decide (r = reg m w)) as [->|Hn].
        -- rewrite list_lookup_insert_eq in Hr by (by eapply lookup_lt_Some).
           injection Hr as <-. rewrite fmap_app. simpl.
           apply NoDup_app. split; [by eapply (wf_keys w Hwf)|].
           split; [|apply NoDup_singleton].
           intros b' Hb' ->%list_elem_of_singleton.
           by apply assoc_None in Ha.
        -- rewrite list_lookup_insert_ne in Hr by done.
           by eapply (wf_keys w Hwf).
      * rewrite Hperm. apply NoDup_cons. split; [|apply Hwf].
        intros Hin. destruct (wf_arrays w Hwf _ Hin) as [l [Hl _]].
        apply lookup_lt_Some in Hl. lia.
      * intros a. rewrite Hperm. intros [->|Hin]%elem_of_cons; simpl.
        -- exists [x]. by rewrite list_lookup_middle.
        -- destruct (wf_arrays w Hwf _ Hin) as [l [Hl Hne]].
           exists l. split; [|done]. rewrite lookup_app_l; [done|].
           by eapply lookup_lt_Some.
    + unfold registered. rewrite Hreg. unfold contents at 1. simpl.
      rewrite list_lookup_insert_eq by (by eapply lookup_lt_Some).
      rewrite (contents_lookup w _ es) by done.
      apply deref_push_absent; [done|]. intros a. by eapply wf_valid.
    + simpl. apply length_insert.
    + intros r Hr. apply contents_ext.
      * simpl. by apply list_lookup_insert_ne.
      * intros es' a Hes' Ha'. simpl. apply lookup_app_l.
        by eapply wf_valid.
Qed.

(** ** What the handler does to the state *)

Lemma wf_with_declared d w : wf w → wf (with_declared d w).
Proof.
  intros H. split; apply H.
Qed.

Lemma concat_snoc_nil {A} (l : list (list A)) : concat (l ++ [[]]) = concat l.
Proof. rewrite concat_app. simpl. by rewrite app_nil_r. Qed.

Lemma wf_swapped m w : wf w → wf (swapped m w).
Proof.
  intros H. unfold swapped. split.
  - intros m'. rewrite maps_with_reg. simpl. rewrite length_app. simpl.
    destruct (decide (m = m')) as [<-|Hne].
    + rewrite reg_with_reg. lia.
    + rewrite reg_with_reg_ne by done. rewrite reg_with_maps.
      pose proof (wf_reg w H m'). lia.
  - pose proof (wf_reg w H bucket_ts). pose proof (wf_reg w H s3_bucket_ts).
    destruct m; simpl in *; lia.
  - intros r es. rewrite maps_with_reg. simpl.
    intros [Hr|[_ Hr]]%lookup_app_Some.
    + by eapply (wf_keys w H).
    + destruct (r - length (maps w)) as [|k]; simpl in Hr; [|done].
      injection Hr as <-. constructor.
  - rewrite maps_with_reg. simpl. rewrite concat_snoc_nil. apply H.
  - rewrite maps_with_reg, arrays_with_reg. simpl.
    rewrite concat_snoc_nil. apply H.
Qed.

Lemma contents_swapped m w r :
  r < length (maps w) → contents (swapped m w) r = contents w r.
Proof.
  intros Hr. apply contents_ext.
  - unfold swapped. rewrite maps_with_reg. simpl. by apply lookup_app_l.
  - intros. unfold swapped. by rewrite arrays_with_reg.
Qed.

Lemma registered_swapped m w : registered m (swapped m w) = [].
Proof.
  unfold registered, contents, swapped.
  rewrite reg_with_reg, maps_with_reg. simpl.
  by rewrite list_lookup_middle.
Qed.

Lemma registered_swapped_ne m m' w :
  wf w → m ≠ m' → registered m' (swapped m w) = registered m' w.
Proof.
  intros H Hne. unfold registered.
  replace (reg m' (swapped m w)) with (reg m' w)
    by (unfold swapped; by rewrite reg_with_reg_ne, reg_with_maps).
  apply contents_swapped, H.
Qed.

Lemma pass_begin_run m w :
  pass_begin m w = (Returned {| copy := reg m w; pos := 0 |}, swapped m w).
Proof. done. Qed.

Lemma declare_notification_run w b a s l :
  arrays w !! a = Some (s :: l) →
  declare_notification (b, a) w
  = (Returned (), with_declared (declared w ++ [aggregate (b, s :: l)]) w).
Proof.
  intros Ha. unfold declare_notification, Array_read, first_name, declare.
  unfold_M. by rewrite Ha.
Qed.

Lemma declare_notification_empty w b a :
  arrays w !! a = Some [] →
  declare_notification (b, a) w = (Thrown TypeError, w).
Proof.
  intros Ha. unfold declare_notification, Array_read, first_name.
  unfold_M. by rewrite Ha.
Qed.

Lemma for_of_declare es : ∀ w,
  (∀ e, e ∈ es → ∃ l, arrays w !! e.2 = Some l ∧ l ≠ []) →
  for_of es declare_notification w
  = (Returned (),
     with_declared (declared w ++ (aggregate <$> (deref (arrays w) <$> es))) w).
Proof.
  induction es as [|[b a] es IH]; intros w Hes.
  - simpl. unfold ret, with_declared. rewrite app_nil_r. by destruct w.
  - destruct (Hes (b, a)) as [[|s l] [Hl Hne]]; [left|done|].
    cbn [for_of]. unfold bind.
    rewrite (declare_notification_run _ _ _ s l) by done.
    rewrite IH.
    + simpl in Hl. rewrite !fmap_cons, (deref_Some _ _ _ (s :: l)) by done.
      unfold with_declared. simpl. by rewrite <- app_assoc.
    + intros e He. apply Hes. by right.
Qed.

Lemma beforeExit_run m w :
  wf w →
  beforeExit m w
  = (Returned (),
     with_declared (declared w ++ (aggregate <$> registered m w))
       (swapped m w)).
Proof.
  intros H. destruct (wf_live w m H) as [es Hes].
  unfold beforeExit, bucketSubscriptionInfos, Map_new,
    set_bucketSubscriptionInfos, Map_entries.
  unfold_M. fold (swapped m w).
  replace (maps (swapped m w) !! reg m w) with (Some es).
  2:{ unfold swapped. rewrite maps_with_reg. simpl.
      rewrite lookup_app_l; [done|apply H]. }
  rewrite for_of_declare.
  - f_equal. f_equal. unfold registered.
    rewrite (contents_lookup w _ es) by done.
    unfold swapped. by rewrite declared_with_reg, arrays_with_reg.
  - intros [b a] He. unfold swapped. rewrite arrays_with_reg. simpl.
    by eapply wf_live_array.
Qed.

Lemma pass_next_run p w :
  wf w →
  pass_next p w
  = match maps w !! copy p with
    | None => (Thrown BadRef, w)
    | Some es =>
        match es !! pos p with
        | None => (Returned None, w)
        | Some e =>
            (Returned (Some {| copy := copy p; pos := S (pos p) |}),
             with_declared (declared w ++ [aggregate (deref (arrays w) e)]) w)
        end
    end.
Proof.
  intros H. unfold pass_next, Map_entries. unfold_M.
  destruct (maps w !! copy p) as [es|] eqn:Hes; [|done].
  destruct (es !! pos p) as [[b a]|] eqn:He; [|done].
  destruct (wf_live_array w _ es b a H Hes) as [[|s l] [Hl Hne]];
    [by eapply list_elem_of_lookup_2|done|].
  rewrite (declare_notification_run _ _ _ s l) by done.
  by rewrite (deref_Some _ _ _ (s :: l)).
Qed.

Lemma call_spec c w :
  wf w →
  let n := length (declared w) in
  let s := object_of_call (c_bucket c) n in
  ∃ w', call c w = (Returned s, w')
    ∧ wf w'
    ∧ declared w' = declared w ++ resources_of_call (c_module c) (c_name c)
                      (c_bucket c) (c_handler c) (c_opts c) n
    ∧ registered (c_module c) w'
      = register (c_bucket c) (info_of c s) (registered (c_module c) w)
    ∧ (∀ m', reg m' w' = reg m' w)
    ∧ length (maps w') = length (maps w)
    ∧ (∀ r, r ≠ reg (c_module c) w → contents w' r = contents w r).
Proof. intros H. by apply onEvent_spec. Qed.

Lemma beforeExit_wf m w : wf w → wf (beforeExit m w).2.
Proof.
  intros H. rewrite beforeExit_run by done. simpl.
  by apply wf_with_declared, wf_swapped.
Qed.

Lemma Reachable_wf w : Reachable w → wf w.
Proof.
  induction 1 as [|w c _ IH|w m _ IH].
  - apply wf_init.
  - destruct (call_spec c w IH) as (w' & -> & Hwf & _). done.
  - by apply beforeExit_wf.
Qed.

(** A subscribe call leaves the registry of the other file alone. *)
Lemma call_registered_ne c w w' s m :
  wf w → call c w = (Returned s, w') → m ≠ c_module c →
  registered m w' = registered m w.
Proof.
  intros H Hrun Hne.
  destruct (call_spec c w H) as (w'' & Hrun' & _ & _ & _ & Hreg & _ & Hother).
  rewrite Hrun in Hrun'. injection Hrun' as _ <-.
  unfold registered. rewrite Hreg. apply Hother.
  pose proof (wf_reg_ne w H). destruct m, (c_module c); simpl in *; congruence.
Qed.

(** ** The specification's registry *)

Lemma lookup_reg_register b x r :
  lookup_reg b (register b x r) = Some (default [] (lookup_reg b r) ++ [x]).
Proof.
  induction r as [|[b' l] r IH]; simpl.
  - by rewrite decide_True.
  - case_decide; simpl.
    + by rewrite decide_True.
    + by rewrite decide_False.
Qed.

Lemma lookup_reg_register_ne b b' x r :
  b ≠ b' → lookup_reg b (register b' x r) = lookup_reg b r.
Proof.
  intros Hne. induction r as [|[b'' l] r IH]; simpl.
  - by rewrite decide_False.
  - case_decide; simpl; case_decide; subst; done.
Qed.

Lemma lookup_reg_None b r : lookup_reg b r = None ↔ b ∉ r.*1.
Proof.
  induction r as [|[b' l] r IH]; simpl.
  - split; [intros _; apply not_elem_of_nil | done].
  - case_decide; subst.
    + split; [done | intros []; left].
    + rewrite IH, not_elem_of_cons. tauto.
Qed.

Lemma keys_register b x r :
  (register b x r).*1 = if decide (b ∈ r.*1) then r.*1 else r.*1 ++ [b].
Proof.
  induction r as [|[b' l] r IH].
  - case_decide as H; [by apply elem_of_nil in H|done].
  - cbn [register]. rewrite !fmap_cons. cbn [fst].
    destruct (decide (b = b')) as [->|Hne]; rewrite !fmap_cons; cbn [fst].
    + rewrite decide_True; [done|left].
    + rewrite IH. destruct (decide (b ∈ r.*1)) as [Hin|Hin].
      * rewrite decide_True; [done|by right].
      * rewrite decide_False; [done|]. rewrite not_elem_of_cons. tauto.
Qed.

Lemma NoDup_register b x r : NoDup r.*1 → NoDup (register b x r).*1.
Proof.
  intros H. rewrite keys_register. case_decide; [done|].
  apply NoDup_app. split; [done|]. split; [|apply NoDup_singleton].
  by intros b' Hb' ->%list_elem_of_singleton.
Qed.

Lemma NoDup_register_all l : ∀ r, NoDup r.*1 → NoDup (register_all l r).*1.
Proof.
  induction l as [|[b x] l IH]; intros r H; [done|].
  simpl. by apply IH, NoDup_register.
Qed.

Lemma lookup_reg_register_all b l : ∀ r,
  lookup_reg b (register_all l r)
  = match requests_for b l with
    | [] => lookup_reg b r
    | more => Some (default [] (lookup_reg b r) ++ more)
    end.
Proof.
  unfold requests_for.
  induction l as [|[b' x] l IH]; intros r; [done|].
  change (register_all ((b', x) :: l) r)
    with (register_all l (register b' x r)).
  rewrite IH, filter_cons. cbn [fst]. case_decide; subst.
  - rewrite fmap_cons, lookup_reg_register. cbn [snd].
    destruct ((filter _ l).*2); simpl; [done|].
    by rewrite <- app_assoc.
  - by rewrite lookup_reg_register_ne.
Qed.

Lemma pending_lookup b r :
  NoDup r.*1 →
  pending b r = match lookup_reg b r with Some l => [(b, l)] | None => [] end.
Proof.
  unfold pending. induction r as [|[b' l] r IH]; [done|].
  rewrite fmap_cons. intros [Hb' Hr]%NoDup_cons.
  rewrite filter_cons. cbn [lookup_reg fst].
  destruct (decide (b' = b)) as [->|Hne].
  - rewrite decide_True by done. f_equal.
    rewrite IH by done.
    simpl in Hb'. by apply lookup_reg_None in Hb' as ->.
  - rewrite decide_False by congruence. by apply IH.
Qed.

Lemma notifications_for_aggregate b (r : Registry) :
  notifications_for b (aggregate <$> r) = aggregate <$> pending b r.
Proof.
  unfold notifications_for, pending.
  induction r as [|[b' l] r IH]; [done|].
  rewrite fmap_cons, !filter_cons. cbn [aggregate notification_bucket fst].
  destruct (decide (b' = b)) as [->|Hne].
  - rewrite decide_True by done. by rewrite fmap_cons, IH.
  - rewrite decide_False by congruence. done.
Qed.

(** Each request given to [register] is in the registry once. *)
Lemma register_Permutation b x (r : Registry) :
  concat (register b x r).*2 ≡ₚ x :: concat r.*2.
Proof.
  induction r as [|[b' l] r IH]; simpl; [done|].
  case_decide; simpl.
  - rewrite <- app_assoc. simpl. by rewrite <- Permutation_middle.
  - rewrite IH. by rewrite <- Permutation_middle.
Qed.

Lemma register_all_Permutation l : ∀ r,
  concat (register_all l r).*2 ≡ₚ l.*2 ++ concat r.*2.
Proof.
  induction l as [|[b x] l IH]; intros r; [done|].
  simpl. rewrite IH, register_Permutation.
  by rewrite <- Permutation_middle.
Qed.

(** ** Subscribe calls and turns of an open pass, in any order *)

Lemma requests_cons m c cs s ss :
  requests m (c :: cs) (s :: ss)
  = if decide (c_module c = m) then request_of (c, s) :: requests m cs ss
    else requests m cs ss.
Proof.
  unfold requests. cbn [zip zip_with]. rewrite filter_cons. cbn [fst].
  by case_decide.
Qed.

Lemma notifications_app d d' :
  notifications (d ++ d') = notifications d ++ notifications d'.
Proof. apply filter_app. Qed.

Lemma notifications_aggregate (r : Registry) :
  notifications (aggregate <$> r) = aggregate <$> r.
Proof.
  unfold notifications. induction r as [|e r IH]; [done|].
  rewrite fmap_cons, filter_cons_True by (by eexists). by rewrite IH.
Qed.

Lemma notifications_resources_of_call m name b h opts n :
  notifications (resources_of_call m name b h opts n) = [].
Proof. done. Qed.

Lemma interleave_spec tr : ∀ w p,
  wf w → pass_ok w p →
  ∃ p' ss w' ext,
    interleave tr p w = (Returned (p', ss), w')
    ∧ wf w' ∧ pass_ok w' p'
    ∧ length ss = length (subscribed tr)
    ∧ declared w' = declared w ++ ext
    ∧ notifications ext ++ (aggregate <$> remaining w' p')
      = aggregate <$> remaining w p
    ∧ (∀ m, registered m w'
            = register_all (requests m (subscribed tr) ss) (registered m w))
    ∧ (∀ c s, (c, s) ∈ zip (subscribed tr) ss →
              declared w' !! sub_permission s = Some (permission_of c s)).
Proof.
  induction tr as [|[c|] tr IH]; intros w p Hwf Hp.
  - exists p, [], w, []. rewrite app_nil_r. split_and!; try done.
    intros c s Hin. by apply elem_of_nil in Hin.
  - destruct (call_spec c w Hwf)
      as (w1 & Hcall & Hwf1 & Hd1 & Hr1 & Hreg1 & Hlen1 & Hoth1).
    set (s := object_of_call (c_bucket c) (length (declared w))) in *.
    assert (Hp1 : pass_ok w1 p).
    { destruct p as [p|]; [|done]. destruct Hp as [Hc Hne].
      split; [by rewrite Hlen1|]. intros m. rewrite Hreg1. apply Hne. }
    assert (Hrem : remaining w1 p = remaining w p).
    { destruct p as [p|]; [|done]. simpl. rewrite Hoth1; [done|apply Hp]. }
    destruct (IH w1 p Hwf1 Hp1)
      as (p' & ss & w' & ext & Hrun & Hwf' & Hp' & Hlen & Hd & Hn & Hr & Hh).
    exists p', (s :: ss), w',
      (resources_of_call (c_module c) (c_name c) (c_bucket c) (c_handler c)
         (c_opts c) (length (declared w)) ++ ext).
    split; [cbn [interleave]; unfold bind; by rewrite Hcall, Hrun|].
    split; [done|]. split; [done|].
    split; [cbn [subscribed omap]; simpl; by rewrite Hlen|].
    split; [by rewrite Hd, Hd1, app_assoc|].
    split; [by rewrite notifications_app, notifications_resources_of_call,
                       app_nil_l, Hn, Hrem|].
    split.
    + intros m. rewrite Hr. change (subscribed (Subscribe c :: tr))
        with (c :: subscribed tr). rewrite requests_cons.
      case_decide as Hm.
      * subst m. by rewrite Hr1.
      * f_equal. unfold registered. rewrite Hreg1. apply Hoth1.
        pose proof (wf_reg_ne w Hwf).
        destruct m, (c_module c); simpl in *; congruence.
    + intros c0 s0. change (subscribed (Subscribe c :: tr))
        with (c :: subscribed tr). cbn [zip zip_with].
      intros [[= -> ->]|Hin]%elem_of_cons; [|by apply Hh].
      rewrite Hd, Hd1. rewrite lookup_app_l.
      * rewrite lookup_app_r by (simpl; lia).
        replace (sub_permission s - length (declared w)) with 2
          by (simpl; lia).
        done.
      * rewrite length_app. simpl. lia.
  - destruct p as [p|].
    + destruct Hp as [Hc Hne].
      destruct (lookup_lt_is_Some_2 _ _ Hc) as [es Hes].
      pose proof (pass_next_run p w Hwf) as Hnext. rewrite Hes in Hnext.
      destruct (es !! pos p) as [e|] eqn:He.
      * set (w1 := with_declared _ w) in Hnext.
        set (p1 := {| copy := copy p; pos := S (pos p) |}) in Hnext.
        destruct (IH w1 (Some p1)) as
          (p' & ss & w' & ext & Hrun & Hwf' & Hp' & Hlen & Hd & Hn & Hr & Hh).
        { by apply wf_with_declared. }
        { split; [done|]. intros m. apply Hne. }
        exists p', ss, w', (aggregate (deref (arrays w) e) :: ext).
        split; [cbn [interleave]; unfold bind; by rewrite Hnext, Hrun|].
        split; [done|]. split; [done|]. split; [done|].
        split; [rewrite Hd; simpl; by rewrite <- app_assoc|].
        split; [|done].
        unfold notifications. rewrite filter_cons_True by (by eexists).
        fold (notifications ext). cbn [app]. rewrite Hn. simpl.
        rewrite (contents_lookup w _ es) by done.
        rewrite (contents_lookup w1 _ es) by done.
        rewrite (drop_S _ (deref (arrays w) e) (pos p))
          by (by rewrite list_lookup_fmap, He).
        done.
      * destruct (IH w None Hwf I) as
          (p' & ss & w' & ext & Hrun & Hwf' & Hp' & Hlen & Hd & Hn & Hr & Hh).
        exists p', ss, w', ext.
        split; [cbn [interleave]; unfold bind; by rewrite Hnext, Hrun|].
        repeat (split; [done|]). split; [|done].
        rewrite Hn. simpl. rewrite (contents_lookup w _ es) by done.
        rewrite drop_ge; [done|]. rewrite length_fmap.
        by apply lookup_ge_None.
    + destruct (IH w None Hwf I) as
        (p' & ss & w' & ext & Hrun & Hwf' & Hp' & Hlen & Hd & Hn & Hr & Hh).
      exists p', ss, w', ext. by repeat (split; [done|]).
Qed.

(** ** The pass taken apart is the handler *)

Lemma declare_notification_maps e w :
  maps (declare_notification e w).2 = maps w.
Proof.
  destruct e as [b a]. unfold declare_notification, Array_read, first_name,
    declare. unfold_M.
  destruct (arrays w !! a) as [[|s l]|]; done.
Qed.

Lemma turns_after_the_end k w :
  interleave (replicate k Turn) None w = (Returned (None, []), w).
Proof. induction k as [|k IH]; [done|]. apply IH. Qed.

Lemma turns_run k : ∀ p w es,
  maps w !! copy p = Some es →
  length es - pos p < k →
  interleave (replicate k Turn) (Some p) w
  = match for_of (drop (pos p) es) declare_notification w with
    | (Returned _, w') => (Returned (None, []), w')
    | (Thrown e, w') => (Thrown e, w')
    end.
Proof.
  induction k as [|k IH]; intros p w es Hes Hk; [lia|].
  cbn [replicate interleave]. unfold bind at 1.
  unfold pass_next, Map_entries. unfold bind at 1. rewrite Hes.
  destruct (es !! pos p) as [e|] eqn:He.
  - rewrite (drop_S _ _ _ He). cbn [for_of]. unfold bind, ret.
    pose proof (declare_notification_maps e w) as Hmaps.
    destruct (declare_notification e w) as [[[]|x] w1]; [|done].
    simpl in Hmaps. apply (IH {| copy := copy p; pos := S (pos p) |}).
    + by rewrite Hmaps.
    + simpl. apply lookup_lt_Some in He. lia.
  - rewrite drop_ge by (by apply lookup_ge_None). unfold ret.
    apply turns_after_the_end.
Qed.

(** Taking the snapshot and then turning the loop until it is over, with
    nothing in between, is a run of the handler: same outcome, same state. *)
Lemma pass_is_beforeExit m w k :
  wf w → length (registered m w) < k →
  (let* p := pass_begin m in interleave (replicate k Turn) (Some p)) w
  = match beforeExit m w with
    | (Returned _, w') => (Returned (None, []), w')
    | (Thrown e, w') => (Thrown e, w')
    end.
Proof.
  intros Hwf Hk. destruct (wf_live w m Hwf) as [es Hes].
  unfold bind at 1. rewrite pass_begin_run.
  assert (Hes' : maps (swapped m w) !! reg m w = Some es).
  { unfold swapped. rewrite maps_with_reg. simpl.
    rewrite lookup_app_l; [done|apply Hwf]. }
  unfold registered in Hk.
  rewrite (contents_lookup w _ es), length_fmap in Hk by done.
  rewrite (turns_run k _ _ es) by (simpl; done || lia).
  simpl. unfold beforeExit, bucketSubscriptionInfos, Map_new,
    set_bucketSubscriptionInfos, Map_entries.
  unfold_M. fold (swapped m w). by rewrite Hes'.
Qed.

(** ** Subscribe calls followed by a run of the handler *)

Lemma subscribed_fmap cs : subscribed (Subscribe <$> cs) = cs.
Proof.
  unfold subscribed. induction cs as [|c cs IH]; [done|].
  rewrite fmap_cons. cbn [omap list_omap]. by rewrite IH.
Qed.

Lemma interleave_calls cs p w :
  interleave (Subscribe <$> cs) p w
  = match calls cs w with
    | (Returned ss, w') => (Returned (p, ss), w')
    | (Thrown e, w') => (Thrown e, w')
    end.
Proof.
  revert w. induction cs as [|c cs IH]; intros w; [done|].
  cbn [fmap list_fmap interleave calls]. unfold bind.
  destruct (call c w) as [[s|e] w1]; [|done].
  rewrite IH. by destruct (calls cs w1) as [[ss|e] w2].
Qed.

Lemma calls_spec cs w :
  wf w →
  ∃ ss w' ext,
    calls cs w = (Returned ss, w')
    ∧ wf w'
    ∧ length ss = length cs
    ∧ declared w' = declared w ++ ext
    ∧ notifications ext = []
    ∧ (∀ m, registered m w'
            = register_all (requests m cs ss) (registered m w))
    ∧ (∀ c s, (c, s) ∈ zip cs ss →
              declared w' !! sub_permission s = Some (permission_of c s)).
Proof.
  intros Hwf.
  destruct (interleave_spec (Subscribe <$> cs) w None Hwf I)
    as (p' & ss & w' & ext & Hrun & Hwf' & _ & Hlen & Hd & Hn & Hr & Hh).
  rewrite interleave_calls in Hrun. rewrite subscribed_fmap in *.
  exists ss, w', ext.
  destruct (calls cs w) as [[ss'|e] w'']; [|done].
  injection Hrun as <- <- <-. split_and!; try done.
  simpl in Hn. by rewrite app_nil_r in Hn.
Qed.

Lemma calls_cons c cs w s w1 ss w2 :
  call c w = (Returned s, w1) → calls cs w1 = (Returned ss, w2) →
  calls (c :: cs) w = (Returned (s :: ss), w2).
Proof. intros H1 H2. cbn [calls]. unfold bind. by rewrite H1, H2. Qed.

Lemma calls_cons_inv c cs w ss w2 :
  calls (c :: cs) w = (Returned ss, w2) →
  ∃ s w1 ss', ss = s :: ss' ∧ call c w = (Returned s, w1)
              ∧ calls cs w1 = (Returned ss', w2).
Proof.
  cbn [calls]. unfold bind, ret.
  destruct (call c w) as [[s|e] w1] eqn:H1; [|done].
  destruct (calls cs w1) as [[ss'|e] w2'] eqn:H2; [|done].
  intros [= <- <-]. by exists s, w1, ss'.
Qed.

Lemma registered_NoDup m w : wf w → NoDup (registered m w).*1.
Proof.
  intros H. destruct (wf_live w m H) as [es Hes].
  unfold registered. rewrite (contents_lookup w _ es) by done.
  rewrite deref_fst. by eapply (wf_keys w H).
Qed.

Lemma registered_nonempty m w :
  wf w → Forall (λ e, e.2 ≠ []) (registered m w).
Proof.
  intros H. destruct (wf_live w m H) as [es Hes].
  unfold registered. rewrite (contents_lookup w _ es) by done.
  apply Forall_fmap, Forall_forall. intros [b a] Hin. simpl.
  destruct (wf_live_array w _ es b a H Hes Hin) as [l [-> Hne]]. done.
Qed.

Lemma declared_since_app w w' ext :
  declared w' = declared w ++ ext → declared_since w w' = ext.
Proof.
  intros H. unfold declared_since. rewrite H. by rewrite drop_app_length.
Qed.

Lemma beforeExit_spec m w :
  wf w →
  ∃ w', beforeExit m w = (Returned (), w')
    ∧ wf w'
    ∧ declared w' = declared w ++ (aggregate <$> registered m w)
    ∧ registered m w' = []
    ∧ (∀ m', m ≠ m' → registered m' w' = registered m' w).
Proof.
  intros H. eexists. split; [by apply beforeExit_run|].
  split; [by apply wf_with_declared, wf_swapped|].
  split; [done|]. split; [apply registered_swapped|].
  intros m' Hne. by apply (registered_swapped_ne m m' w).
Qed.

(** The aggregate a pass declares for one bucket, from the requests that
    were registered for it since it last had none pending. *)
Lemma aggregate_for_bucket b reqs (r : Registry) :
  NoDup r.*1 → b ∉ r.*1 →
  notifications_for b (aggregate <$> register_all reqs r)
  = match requests_for b reqs with
    | [] => []
    | mine => [aggregate (b, mine)]
    end.
Proof.
  intros Hnd Hb. rewrite notifications_for_aggregate.
  rewrite pending_lookup by (by apply NoDup_register_all).
  rewrite lookup_reg_register_all.
  apply lookup_reg_None in Hb. rewrite Hb.
  by destruct (requests_for b reqs).
Qed.

Lemma notifications_for_notifications b d :
  notifications_for b (notifications d) = notifications_for b d.
Proof.
  unfold notifications_for, notifications.
  induction d as [|r d IH]; [done|].
  rewrite !filter_cons. destruct (decide (is_Some (notification_bucket r)))
    as [Hr|Hr].
  - rewrite filter_cons, IH. done.
  - rewrite IH, decide_False; [done|]. intros Hb. apply Hr. by eexists.
Qed.

Lemma pass_after_calls m cs w :
  wf w →
  ∃ ss w1 w2,
    calls cs w = (Returned ss, w1)
    ∧ length ss = length cs
    ∧ wf w1
    ∧ beforeExit m w1 = (Returned (), w2)
    ∧ notifications (declared_since w w2)
      = aggregate <$> register_all (requests m cs ss) (registered m w)
    ∧ (∀ c s, (c, s) ∈ zip cs ss →
              declared w1 !! sub_permission s = Some (permission_of c s)).
Proof.
  intros Hwf.
  destruct (calls_spec cs w Hwf)
    as (ss & w1 & ext & Hrun & Hwf1 & Hlen & Hd & Hn & Hr & Hh).
  destruct (beforeExit_spec m w1 Hwf1) as (w2 & Hrun2 & _ & Hd2 & _).
  exists ss, w1, w2. split_and!; try done.
  rewrite Hd, <- app_assoc in Hd2.
  rewrite (declared_since_app _ _ _ Hd2), notifications_app, Hn.
  by rewrite notifications_aggregate, Hr.
Qed.

Lemma requests_app m cs1 cs2 ss1 ss2 :
  length cs1 = length ss1 →
  requests m (cs1 ++ cs2) (ss1 ++ ss2)
  = requests m cs1 ss1 ++ requests m cs2 ss2.
Proof.
  intros Hlen. unfold requests.
  rewrite zip_with_app by done. by rewrite filter_app, fmap_app.
Qed.

Lemma requests_for_app b l1 l2 :
  requests_for b (l1 ++ l2) = requests_for b l1 ++ requests_for b l2.
Proof. unfold requests_for. by rewrite filter_app, fmap_app. Qed.

Lemma requests_for_none m b cs : ∀ ss,
  (∀ c, c ∈ cs → ¬ (c_module c = m ∧ c_bucket c = b)) →
  requests_for b (requests m cs ss) = [].
Proof.
  induction cs as [|c cs IH]; intros [|s ss] Hcs; try done.
  rewrite requests_cons. case_decide as Hm.
  - unfold requests_for. rewrite filter_cons. cbn [request_of fst].
    rewrite decide_False.
    + apply IH. intros c' Hc'. apply Hcs. by right.
    + intros Hb. apply (Hcs c); [left|done].
  - apply IH. intros c' Hc'. apply Hcs. by right.
Qed.

Lemma requests_for_length m b cs : ∀ ss,
  length ss = length cs →
  length (requests_for b (requests m cs ss))
  = length (filter (λ c, c_module c = m ∧ c_bucket c = b) cs).
Proof.
  induction cs as [|c cs IH]; intros [|s ss] Hlen; try done.
  injection Hlen as Hlen. rewrite requests_cons, filter_cons.
  destruct (decide (c_module c = m)) as [Hm|Hm].
  - unfold requests_for. rewrite filter_cons. cbn [request_of fst].
    destruct (decide (c_bucket c = b)) as [Hb|Hb].
    + rewrite decide_True by done. rewrite fmap_cons. simpl.
      f_equal. by apply IH.
    + rewrite decide_False by tauto. by apply IH.
  - rewrite decide_False by tauto. by apply IH.
Qed.

(** The first call for a bucket gives the aggregate its name. *)
Lemma first_call_names_aggregate m b c0 pre post w :
  wf w → b ∉ (registered m w).*1 →
  c_module c0 = m → c_bucket c0 = b →
  (∀ c, c ∈ pre → ¬ (c_module c = m ∧ c_bucket c = b)) →
  ∃ ss w1 w2 lfs deps,
    calls (pre ++ c0 :: post) w = (Returned ss, w1)
    ∧ beforeExit m w1 = (Returned (), w2)
    ∧ notifications_for b (declared_since w w2)
      = [BucketNotification (c_name c0) (bucket_id b) lfs b deps].
Proof.
  intros Hwf Hb Hm0 Hb0 Hpre.
  destruct (pass_after_calls m (pre ++ c0 :: post) w Hwf)
    as (ss & w1 & w2 & Hrun & Hlen & Hwf1 & Hrun2 & Hd & _).
  rewrite length_app in Hlen. simpl in Hlen.
  assert (Hss : ss = take (length pre) ss ++ drop (length pre) ss)
    by (by rewrite take_drop).
  destruct (drop (length pre) ss) as [|s0 ss2] eqn:Hdrop.
  { apply (f_equal length) in Hdrop. rewrite length_drop in Hdrop.
    simpl in Hdrop. lia. }
  set (ss1 := take (length pre) ss) in *.
  assert (Hlen1 : length pre = length ss1)
    by (unfold ss1; rewrite length_take; lia).
  assert (Hmine : ∃ rest, requests_for b (requests m (pre ++ c0 :: post) ss)
                          = info_of c0 s0 :: rest).
  { rewrite Hss, requests_app, requests_for_app by done.
    rewrite (requests_for_none m b pre) by done.
    rewrite requests_cons, decide_True by done.
    unfold requests_for. rewrite filter_cons. cbn [request_of fst].
    rewrite decide_True by done. rewrite fmap_cons. by eexists. }
  destruct Hmine as [rest Hmine].
  eexists ss, w1, w2, _, _. split; [done|]. split; [done|].
  rewrite <- notifications_for_notifications, Hd.
  rewrite aggregate_for_bucket by (by try apply registered_NoDup).
  rewrite Hmine. unfold aggregate. simpl. done.
Qed.

(** * The claims *)

Lemma requests_for_requests m b cs ss :
  requests_for b (requests m cs ss)
  = (λ x, info_of x.1 x.2)
      <$> filter (λ x, c_module x.1 = m ∧ c_bucket x.1 = b) (zip cs ss).
Proof.
  unfold requests_for, requests.
  induction (zip cs ss) as [|[c s] zs IH]; [done|].
  rewrite !(filter_cons _ (c, s)). cbn [fst].
  destruct (decide (c_module c = m)) as [Hm|Hm].
  - rewrite fmap_cons, filter_cons. cbn [request_of fst snd].
    destruct (decide (c_bucket c = b)) as [Hb|Hb].
    + rewrite decide_True by done. rewrite !fmap_cons. cbn [snd fst].
      f_equal. apply IH.
    + rewrite decide_False by tauto. apply IH.
  - rewrite decide_False by tauto. apply IH.
Qed.

Lemma filter_zip_fst (P : Call → Prop) `{!∀ c, Decision (P c)} cs :
  ∀ ss : list BucketEventSubscription,
    length ss = length cs →
    (filter (λ x, P x.1) (zip cs ss)).*1 = filter P cs.
Proof.
  induction cs as [|c cs IH]; intros [|s ss] Hlen; try done.
  injection Hlen as Hlen. cbn [zip zip_with]. rewrite !filter_cons. cbn [fst].
  case_decide; [rewrite fmap_cons; cbn [fst]; f_equal|]; by apply IH.
Qed.

(** The function handle of the object a call returned designates the
    function the call has declared. *)
Lemma calls_functions cs : ∀ w ss w',
  wf w → calls cs w = (Returned ss, w') →
  ∀ c s, (c, s) ∈ zip cs ss →
    declared w' !! sub_func s
    = Some (LambdaFunction (c_name c +:+ funcSuffix (c_module c))
              (c_handler c) (c_opts c)).
Proof.
  induction cs as [|c cs IH]; intros w ss w' Hw Hrun c0 s0.
  - by intros ?%elem_of_nil.
  - apply calls_cons_inv in Hrun as (s & w1 & ss' & -> & Hcall & Hrest).
    destruct (call_spec c w Hw) as (w1' & Hcall' & Hwf1 & Hd1 & _).
    rewrite Hcall in Hcall'. injection Hcall' as -> <-.
    destruct (calls_spec cs w1 Hwf1) as (ss'' & w'' & ext & Hrest' & _ & _
                                          & Hd & _).
    rewrite Hrest in Hrest'. injection Hrest' as _ <-.
    cbn [zip zip_with]. intros [[= -> ->]|Hin]%elem_of_cons.
    + rewrite Hd, Hd1. cbn [sub_func object_of_call].
      rewrite lookup_app_l by (rewrite length_app; simpl; lia).
      rewrite lookup_app_r by lia. by rewrite Nat.sub_diag.
    + by eapply IH.
Qed.

(** C1.  Subscribe calls followed by one run of the handler of file [m]:
    for a bucket [b] that had nothing pending before and is the target of
    N >= 1 of the calls made through [m], the run declares exactly one
    [BucketNotification] with parent [b].  With [mine] the N calls for [b]
    through [m], in call order, each with the object it returned: the
    aggregate has one [lambdaFunctions] entry per call, in that order, whose
    [events], [filterPrefix] and [filterSuffix] are the ones the call was
    given and whose [lambdaFunctionArn] is the ARN of the function the call
    has declared; it depends on the N permissions those calls have declared;
    and nothing of a call for another bucket or through the other file is in
    it. *)
Theorem single_aggregate_per_bucket m b cs w0 :
  Reachable w0 →
  b ∉ (registered m w0).*1 →
  0 < length (filter (λ c, c_module c = m ∧ c_bucket c = b) cs) →
  ∃ ss w1 w2,
    calls cs w0 = (Returned ss, w1)
    ∧ length ss = length cs
    ∧ beforeExit m w1 = (Returned (), w2)
    ∧ let mine :=
        filter (λ x, c_module x.1 = m ∧ c_bucket x.1 = b) (zip cs ss) in
      mine.*1 = filter (λ c, c_module c = m ∧ c_bucket c = b) cs
      ∧ notifications_for b (declared_since w0 w2)
        = [BucketNotification
             (default "" ((λ x, c_name x.1) <$> head mine))
             (bucket_id b)
             ((λ x, {| lf_events := events (c_args x.1);
                       lf_filterPrefix := filterPrefix (c_args x.1);
                       lf_filterSuffix := filterSuffix (c_args x.1);
                       lf_lambdaFunctionArn := function_arn (sub_func x.2) |})
                <$> mine)
             b
             ((λ x, sub_permission x.2) <$> mine)]
      ∧ (∀ c s, (c, s) ∈ zip cs ss →
           declared w1 !! sub_func s
           = Some (LambdaFunction (c_name c +:+ funcSuffix (c_module c))
                     (c_handler c) (c_opts c))
           ∧ declared w1 !! sub_permission s
             = Some (Permission (c_name c) (sub_func s)
                       "lambda:InvokeFunction" "s3.amazonaws.com"
                       (apply_s3_arn (bucket_id (c_bucket c)))
                       (sub_self s))).
Proof.
  intros Hw Hb HN. apply Reachable_wf in Hw.
  destruct (pass_after_calls m cs w0 Hw)
    as (ss & w1 & w2 & Hrun & Hlen & Hwf1 & Hrun2 & Hd & Hh).
  exists ss, w1, w2. split; [done|]. split; [done|]. split; [done|].
  cbv zeta.
  pose proof (filter_zip_fst (λ c, c_module c = m ∧ c_bucket c = b) cs ss Hlen)
    as Hmine.
  split; [exact Hmine|]. split.
  - rewrite <- notifications_for_notifications, Hd.
    rewrite aggregate_for_bucket by (by try apply registered_NoDup).
    rewrite requests_for_requests.
    destruct (filter (λ x, c_module x.1 = m ∧ c_bucket x.1 = b) (zip cs ss))
      as [|[c s] mine] eqn:Hfilter.
    + rewrite <- Hmine, Hfilter in HN. simpl in HN. lia.
    + rewrite fmap_cons. unfold aggregate. cbn [fst snd].
      rewrite !fmap_cons, <- !list_fmap_compose. done.
  - intros c s Hin. split;
      [exact (calls_functions cs w0 ss w1 Hw Hrun c s Hin)|exact (Hh c s Hin)].
Qed.

Lemma single_aggregate_per_bucket_witness :
  ∃ ss w1 w2,
    calls [call_a; call_c; call_b] init = (Returned ss, w1)
    ∧ length ss = 3
    ∧ beforeExit bucket_ts w1 = (Returned (), w2)
    ∧ let mine :=
        filter (λ x, c_module x.1 = bucket_ts ∧ c_bucket x.1 = B1)
          (zip [call_a; call_c; call_b] ss) in
      mine.*1 = [call_a; call_b]
      ∧ notifications_for B1 (declared_since init w2)
        = [BucketNotification
             (default "" ((λ x, c_name x.1) <$> head mine))
             (bucket_id B1)
             ((λ x, {| lf_events := events (c_args x.1);
                       lf_filterPrefix := filterPrefix (c_args x.1);
                       lf_filterSuffix := filterSuffix (c_args x.1);
                       lf_lambdaFunctionArn := function_arn (sub_func x.2) |})
                <$> mine)
             B1
             ((λ x, sub_permission x.2) <$> mine)]
      ∧ (∀ c s, (c, s) ∈ zip [call_a; call_c; call_b] ss →
           declared w1 !! sub_func s
           = Some (LambdaFunction (c_name c +:+ funcSuffix (c_module c))
                     (c_handler c) (c_opts c))
           ∧ declared w1 !! sub_permission s
             = Some (Permission (c_name c) (sub_func s)
                       "lambda:InvokeFunction" "s3.amazonaws.com"
                       (apply_s3_arn (bucket_id (c_bucket c)))
                       (sub_self s))).
Proof.
  apply (single_aggregate_per_bucket bucket_ts B1 [call_a; call_c; call_b]
           init).
  - apply Reachable_init.
  - apply not_elem_of_nil.
  - vm_compute. lia.
Defined.

(** The scenario of the specification worked out: ["a"] and ["b"] on [B1],
    with ["c"] on [B2] in between, then the handler. *)
Example single_aggregate_scenario :
  let r := calls [call_a; call_c; call_b] init in
  notifications_for B1 (declared_since init (beforeExit bucket_ts r.2).2)
  = [BucketNotification "a" (bucket_id B1)
       [{| lf_events := ["s3:ObjectCreated:*"]; lf_filterPrefix := None;
           lf_filterSuffix := None; lf_lambdaFunctionArn := function_arn 0 |};
        {| lf_events := ["s3:ObjectRemoved:*"]; lf_filterPrefix := None;
           lf_filterSuffix := None; lf_lambdaFunctionArn := function_arn 6 |}]
       B1 [2; 8]].
Proof. vm_compute. reflexivity. Qed.

(** Every state a written-down run passes through is a state of a run. *)
Lemma Reachable_run tr : ∀ w, Reachable w → Reachable (run tr w).2.
Proof.
  unfold run. induction tr as [|s tr IH]; intros w Hw; [done|].
  cbn [for_of]. unfold bind.
  assert (Hs : Reachable (step s w).2).
  { destruct s as [c|m]; [|by apply Reachable_beforeExit].
    apply (Reachable_onEvent w c) in Hw. simpl. unfold bind, ret.
    by destruct (call c w) as [[?|?] ?]. }
  destruct (step s w) as [[[]|e] w1]; [by apply IH|done].
Qed.

(** C2.  The code declares more than one aggregate for one bucket in a run
    in two ways.  A subscription registered after the handler has run gets
    an aggregate of its own at the next run of the handler; and a bucket
    subscribed through both files gets one aggregate from each file at a
    single firing of the hook.  Both are runs that end without error, so the
    invariant does not hold of the code. *)
Theorem two_aggregates_for_one_bucket :
  ((run late_registration init).1 = Returned ()
   ∧ notifications_for B1 (declared (run late_registration init).2)
     = [BucketNotification "a" (bucket_id B1)
          [{| lf_events := ["s3:ObjectCreated:*"]; lf_filterPrefix := None;
              lf_filterSuffix := None;
              lf_lambdaFunctionArn := function_arn 0 |}]
          B1 [2];
        BucketNotification "b" (bucket_id B1)
          [{| lf_events := ["s3:ObjectRemoved:*"]; lf_filterPrefix := None;
              lf_filterSuffix := None;
              lf_lambdaFunctionArn := function_arn 4 |}]
          B1 [6]])
  ∧ ((both_files init).1 = Returned ()
     ∧ notifications_for B1 (declared (both_files init).2)
       = [BucketNotification "a-put" (bucket_id B1)
            [{| lf_events := ["s3:ObjectCreated:*"]; lf_filterPrefix := None;
                lf_filterSuffix := None;
                lf_lambdaFunctionArn := function_arn 0 |}]
            B1 [2];
          BucketNotification "b-object-removed" (bucket_id B1)
            [{| lf_events := ["s3:ObjectRemoved:*"]; lf_filterPrefix := None;
                lf_filterSuffix := None;
                lf_lambdaFunctionArn := function_arn 3 |}]
            B1 [5]])
  ∧ ¬ one_aggregate_per_bucket_per_run.
Proof.
  split_and!; try (vm_compute; reflexivity).
  intros H.
  specialize (H (run late_registration init).2 B1
                (Reachable_run late_registration init Reachable_init)).
  vm_compute in H. lia.
Qed.

(** One run of a handler declares at most one aggregate per bucket. *)
Lemma one_aggregate_per_pass m b w :
  Reachable w →
  (length (notifications_for b (declared_since w (beforeExit m w).2)) ≤ 1)%nat.
Proof.
  intros Hw%Reachable_wf.
  destruct (beforeExit_spec m w Hw) as (w' & -> & _ & Hd & _). simpl.
  rewrite (declared_since_app _ _ _ Hd), notifications_for_aggregate.
  rewrite pending_lookup by (by apply registered_NoDup).
  destruct (lookup_reg b (registered m w)); simpl; lia.
Qed.

(** C3.  The handler of [m] assigns the new [Map] before it declares
    anything: after [pass_begin] nothing has been declared, the registry of
    [m] is empty and [copy] holds what was registered.  Whatever subscribe
    calls run between the turns of the loop, what the pass has declared
    together with what it still has to declare stays the list of aggregates
    of that snapshot, so no such call is merged into the pass; the calls
    made through [m] are all in the new registry, each once; and when the
    loop is over the next run of the handler declares exactly the
    aggregates of those calls. *)
Theorem registration_during_a_pass m tr w :
  Reachable w →
  ∃ p w1,
    pass_begin m w = (Returned p, w1)
    ∧ declared w1 = declared w
    ∧ registered m w1 = []
    ∧ contents w1 (copy p) = registered m w
    ∧ ∃ p' ss w2,
        interleave tr (Some p) w1 = (Returned (p', ss), w2)
        ∧ length ss = length (subscribed tr)
        ∧ notifications (declared_since w w2)
            ++ (aggregate <$> remaining w2 p')
          = aggregate <$> registered m w
        ∧ let late := requests m (subscribed tr) ss in
          registered m w2 = register_all late []
          ∧ concat (registered m w2).*2 ≡ₚ late.*2
          ∧ (p' = None →
             ∃ w3, beforeExit m w2 = (Returned (), w3)
                   ∧ declared_since w2 w3 = aggregate <$> register_all late []).
Proof.
  intros Hw%Reachable_wf. rewrite pass_begin_run.
  exists {| copy := reg m w; pos := 0 |}, (swapped m w).
  assert (Hc : contents (swapped m w) (reg m w) = registered m w)
    by apply contents_swapped, Hw.
  assert (Hd1 : declared (swapped m w) = declared w)
    by (unfold swapped; by rewrite declared_with_reg).
  split; [done|]. split; [done|]. split; [apply registered_swapped|].
  split; [done|].
  destruct (interleave_spec tr (swapped m w)
              (Some {| copy := reg m w; pos := 0 |}))
    as (p' & ss & w2 & ext & Hrun & Hwf2 & _ & Hlen & Hd & Hn & Hr & _).
  { by apply wf_swapped. }
  { split.
    - unfold swapped. rewrite maps_with_reg. simpl. rewrite length_app.
      pose proof (wf_reg w Hw m). simpl. lia.
    - intros m'. unfold swapped. destruct (decide (m = m')) as [<-|Hne].
      + rewrite reg_with_reg. pose proof (wf_reg w Hw m). simpl. lia.
      + rewrite reg_with_reg_ne, reg_with_maps by done.
        pose proof (wf_reg_ne w Hw). destruct m, m'; simpl in *; congruence. }
  exists p', ss, w2. split; [done|]. split; [done|].
  rewrite Hd1 in Hd. split.
  { rewrite (declared_since_app _ _ _ Hd), Hn. simpl. by rewrite Hc. }
  assert (Hreg : registered m w2
                 = register_all (requests m (subscribed tr) ss) []).
  { by rewrite Hr, registered_swapped. }
  simpl. split; [done|]. split.
  { rewrite Hreg, register_all_Permutation. simpl. by rewrite app_nil_r. }
  intros _. destruct (beforeExit_spec m w2 Hwf2) as (w3 & Hrun3 & _ & Hd3 & _).
  exists w3. split; [done|].
  by rewrite (declared_since_app _ _ _ Hd3), Hreg.
Qed.

Lemma registration_during_a_pass_witness :
  ∃ p w1,
    pass_begin bucket_ts two_pending = (Returned p, w1)
    ∧ declared w1 = declared two_pending
    ∧ registered bucket_ts w1 = []
    ∧ contents w1 (copy p) = registered bucket_ts two_pending
    ∧ ∃ p' ss w2,
        interleave busy_pass (Some p) w1 = (Returned (p', ss), w2)
        ∧ length ss = length (subscribed busy_pass)
        ∧ notifications (declared_since two_pending w2)
            ++ (aggregate <$> remaining w2 p')
          = aggregate <$> registered bucket_ts two_pending
        ∧ let late := requests bucket_ts (subscribed busy_pass) ss in
          registered bucket_ts w2 = register_all late []
          ∧ concat (registered bucket_ts w2).*2 ≡ₚ late.*2
          ∧ (p' = None →
             ∃ w3, beforeExit bucket_ts w2 = (Returned (), w3)
                   ∧ declared_since w2 w3
                     = aggregate <$> register_all late []).
Proof.
  apply (registration_during_a_pass bucket_ts busy_pass two_pending).
  apply Reachable_onEvent, Reachable_onEvent, Reachable_init.
Defined.

(** The pass of [busy_pass] worked out: the open pass declares the
    aggregates of ["a"] and ["c"] only, the loop is over at the end, ["b"]
    and ["x"] wait in the new registry in the order they came, and the next
    run of the handler declares one aggregate for them. *)
Example busy_pass_run :
  let r := (let* p := pass_begin bucket_ts in interleave busy_pass (Some p))
             two_pending in
  (∃ ss, r.1 = Returned (None, ss))
  ∧ notifications (declared_since two_pending r.2)
    = [BucketNotification "a" (bucket_id B1)
         [{| lf_events := ["s3:ObjectCreated:*"]; lf_filterPrefix := None;
             lf_filterSuffix := None;
             lf_lambdaFunctionArn := function_arn 0 |}]
         B1 [2];
       BucketNotification "c" (bucket_id B2)
         [{| lf_events := ["s3:ObjectCreated:Put"];
             lf_filterPrefix := Some "logs/"; lf_filterSuffix := None;
             lf_lambdaFunctionArn := function_arn 3 |}]
         B2 [5]]
  ∧ (registered bucket_ts r.2).*1 = [B1]
  ∧ name <$> concat (registered bucket_ts r.2).*2 = ["b"; "x"]
  ∧ declared_since r.2 (beforeExit bucket_ts r.2).2
    = [BucketNotification "b" (bucket_id B1)
         [{| lf_events := ["s3:ObjectRemoved:*"]; lf_filterPrefix := None;
             lf_filterSuffix := None;
             lf_lambdaFunctionArn := function_arn 6 |};
          {| lf_events := []; lf_filterPrefix := None;
             lf_filterSuffix := None;
             lf_lambdaFunctionArn := function_arn 11 |}]
         B1 [8; 13]].
Proof. split_and!; try (vm_compute; reflexivity). by eexists. Qed.

(** C4, as the code has it.  [onEvent] does not look at [args.events]: from
    every state of a run, and for every list of events, empty or not, the
    call returns; it has then declared the function, the component and the
    permission, and has registered a request that carries the list of
    events it was given. *)
Theorem onEvent_never_rejects m name b h args opts w :
  Reachable w →
  ∃ s w',
    onEvent m name b h args opts w = (Returned s, w')
    ∧ declared w'
      = declared w
        ++ [LambdaFunction (name +:+ funcSuffix m) h opts;
            EventSubscription "aws-serverless:bucket:BucketEventSubscription"
              name (sub_func s) b opts;
            Permission name (sub_func s) "lambda:InvokeFunction"
              "s3.amazonaws.com" (apply_s3_arn (bucket_id b)) (sub_self s)]
    ∧ registered m w'
      = register b {| name := name; info_events := events args;
                      info_filterPrefix := filterPrefix args;
                      info_filterSuffix := filterSuffix args;
                      lambdaFunctionArn := function_arn (sub_func s);
                      permission := sub_permission s |}
          (registered m w).
Proof.
  intros Hw%Reachable_wf.
  destruct (onEvent_spec m name b h args opts w Hw)
    as (w' & Hrun & _ & Hd & Hr & _).
  eexists _, w'. split; [done|]. split; [done|]. done.
Qed.

Lemma onEvent_never_rejects_witness :
  ∃ s w',
    onEvent bucket_ts "x" B1 handler0
      {| events := []; filterPrefix := None; filterSuffix := None |} None init
    = (Returned s, w')
    ∧ declared w'
      = declared init
        ++ [LambdaFunction ("x" +:+ funcSuffix bucket_ts) handler0 None;
            EventSubscription "aws-serverless:bucket:BucketEventSubscription"
              "x" (sub_func s) B1 None;
            Permission "x" (sub_func s) "lambda:InvokeFunction"
              "s3.amazonaws.com" (apply_s3_arn (bucket_id B1)) (sub_self s)]
    ∧ registered bucket_ts w'
      = register B1 {| name := "x"; info_events := [];
                       info_filterPrefix := None; info_filterSuffix := None;
                       lambdaFunctionArn := function_arn (sub_func s);
                       permission := sub_permission s |}
          (registered bucket_ts init).
Proof.
  apply (onEvent_never_rejects bucket_ts "x" B1 handler0
           {| events := []; filterPrefix := None; filterSuffix := None |}
           None init).
  apply Reachable_init.
Defined.

(** C4 fails on the code: the call of the specification's scenario, with an
    empty list of events, returns; three resources have been declared and
    the request is in the registry with its empty list. *)
Lemma empty_events_accepted :
  let args := {| events := []; filterPrefix := None; filterSuffix := None |} in
  let r := onEvent bucket_ts "x" B1 handler0 args None init in
  r.1 = Returned {| sub_self := 1; sub_func := 0; sub_permission := 2;
                    sub_bucket := B1 |}
  ∧ declared r.2
    = [LambdaFunction "x-bucket-subscription" handler0 None;
       EventSubscription "aws-serverless:bucket:BucketEventSubscription"
         "x" 0 B1 None;
       Permission "x" 0 "lambda:InvokeFunction" "s3.amazonaws.com"
         (apply_s3_arn (bucket_id B1)) 1]
  ∧ registered bucket_ts r.2
    = [(B1, [{| name := "x"; info_events := []; info_filterPrefix := None;
                info_filterSuffix := None;
                lambdaFunctionArn := function_arn 0; permission := 2 |}])].
Proof. split_and!; vm_compute; reflexivity. Qed.

(** C5.  The first call made through [m] for a bucket that had nothing
    pending gives the aggregate its name, whatever calls come before it for
    other buckets and whatever calls come after it. *)
Theorem aggregate_named_after_first m b c0 pre post w :
  Reachable w →
  b ∉ (registered m w).*1 →
  c_module c0 = m → c_bucket c0 = b →
  (∀ c, c ∈ pre → ¬ (c_module c = m ∧ c_bucket c = b)) →
  ∃ ss w1 w2 lfs deps,
    calls (pre ++ c0 :: post) w = (Returned ss, w1)
    ∧ beforeExit m w1 = (Returned (), w2)
    ∧ notifications_for b (declared_since w w2)
      = [BucketNotification (c_name c0) (bucket_id b) lfs b deps].
Proof.
  intros Hw%Reachable_wf. by apply first_call_names_aggregate.
Qed.

Lemma aggregate_named_after_first_witness :
  ∃ ss w1 w2 lfs deps,
    calls ([call_c] ++ call_a :: [call_b]) init = (Returned ss, w1)
    ∧ beforeExit bucket_ts w1 = (Returned (), w2)
    ∧ notifications_for B1 (declared_since init w2)
      = [BucketNotification (c_name call_a) (bucket_id B1) lfs B1 deps].
Proof.
  apply (aggregate_named_after_first bucket_ts B1 call_a [call_c] [call_b]
           init).
  - apply Reachable_init.
  - apply not_elem_of_nil.
  - reflexivity.
  - reflexivity.
  - intros c Hc [_ Hb]. apply list_elem_of_singleton in Hc. subst c.
    discriminate Hb.
Defined.

(** C6.  The handler of [m] on an empty registry returns and declares
    nothing; in particular a second run right after a first one declares
    nothing. *)
Theorem drained_registry_is_a_no_op m w :
  Reachable w →
  (registered m w = [] →
   ∃ w', beforeExit m w = (Returned (), w') ∧ declared w' = declared w)
  ∧ ∃ w1 w2,
      beforeExit m w = (Returned (), w1)
      ∧ beforeExit m w1 = (Returned (), w2)
      ∧ declared w2 = declared w1.
Proof.
  intros Hw%Reachable_wf.
  destruct (beforeExit_spec m w Hw) as (w1 & Hrun1 & Hwf1 & Hd1 & Hr1 & _).
  destruct (beforeExit_spec m w1 Hwf1) as (w2 & Hrun2 & _ & Hd2 & _).
  split.
  - intros Hempty. exists w1. split; [done|].
    rewrite Hd1, Hempty. apply app_nil_r.
  - exists w1, w2. split; [done|]. split; [done|].
    rewrite Hd2, Hr1. apply app_nil_r.
Qed.

Lemma drained_registry_is_a_no_op_witness :
  (∃ w', beforeExit bucket_ts init = (Returned (), w')
         ∧ declared w' = declared init)
  ∧ ∃ w1 w2,
      beforeExit bucket_ts two_pending = (Returned (), w1)
      ∧ beforeExit bucket_ts w1 = (Returned (), w2)
      ∧ declared w2 = declared w1.
Proof.
  split.
  - apply (drained_registry_is_a_no_op bucket_ts init Reachable_init).
    reflexivity.
  - apply (drained_registry_is_a_no_op bucket_ts two_pending).
    apply Reachable_onEvent, Reachable_onEvent, Reachable_init.
Defined.

(** ** A list that is empty *)

Lemma for_of_app {A} (l1 l2 : list A) body w :
  for_of (l1 ++ l2) body w
  = match for_of l1 body w with
    | (Returned _, w') => for_of l2 body w'
    | (Thrown e, w') => (Thrown e, w')
    end.
Proof.
  revert w. induction l1 as [|x l1 IH]; intros w; [done|].
  cbn [app for_of]. unfold bind.
  destruct (body x w) as [[[]|e] w1]; [apply IH|done].
Qed.

Lemma beforeExit_empty_list m w es1 b a es2 :
  maps w !! reg m w = Some (es1 ++ (b, a) :: es2) →
  (∀ e, e ∈ es1 → ∃ l, arrays w !! e.2 = Some l ∧ l ≠ []) →
  arrays w !! a = Some [] →
  beforeExit m w
  = (Thrown TypeError,
     with_declared (declared w ++ (aggregate <$> (deref (arrays w) <$> es1)))
       (swapped m w)).
Proof.
  intros Hes Hes1 Ha.
  unfold beforeExit, bucketSubscriptionInfos, Map_new,
    set_bucketSubscriptionInfos, Map_entries.
  unfold_M. fold (swapped m w).
  replace (maps (swapped m w) !! reg m w) with (Some (es1 ++ (b, a) :: es2)).
  2:{ unfold swapped. rewrite maps_with_reg. simpl.
      rewrite lookup_app_l; [done|by eapply lookup_lt_Some]. }
  assert (Harr : arrays (swapped m w) = arrays w)
    by (unfold swapped; by rewrite arrays_with_reg).
  rewrite for_of_app, for_of_declare.
  2:{ intros e He. rewrite Harr. by apply Hes1. }
  cbn [for_of]. unfold bind.
  rewrite declare_notification_empty
    by (change (arrays (with_declared ?d ?v)) with (arrays v);
        by rewrite Harr).
  rewrite Harr. unfold swapped. by rewrite declared_with_reg.
Qed.

(** With its [args] the call is the one TypeScript admits. *)
Lemma onEvent_any_Some m name b h args opts :
  onEvent_any m name b h (Some args) opts = onEvent m name b h args opts.
Proof. reflexivity. Qed.

(** Without [args], on a bucket with nothing pending: the function, the
    subscription and the permission are declared, the empty list is
    created and stored, and the read of [args.events] raises. *)
Lemma onEvent_any_omitted m name b h opts w es :
  maps w !! reg m w = Some es → assoc b es = None →
  onEvent_any m name b h None opts w =
    (Thrown TypeError,
     with_arrays (arrays w ++ [[]])
       (with_maps (<[reg m w := es ++ [(b, length (arrays w))]]> (maps w))
          (with_declared
             (declared w
              ++ resources_of_call m name b h opts (length (declared w)))
             w))).
Proof.
  intros Hes Ha.
  unfold onEvent_any, createLambdaFunction, BucketEventSubscription_new_any,
    EventSubscription_super, declare, bucketSubscriptionInfos, Map_get,
    Map_set, Array_new, Map_entries, property.
  unfold_M. simpl. rewrite !reg_with_declared, Hes, Ha. simpl.
  rewrite ?reg_with_declared, ?Hes. simpl.
  rewrite assoc_set_absent by done.
  rewrite !length_app. simpl. rewrite <- !app_assoc. simpl.
  replace (length (declared w) + 1) with (S (length (declared w))) by lia.
  done.
Qed.

Lemma omitted_args_registered m name b h opts w :
  wf w → b ∉ (registered m w).*1 →
  let w' := (onEvent_any m name b h None opts w).2 in
  ∃ es,
    maps w !! reg m w = Some es
    ∧ (onEvent_any m name b h None opts w).1 = Thrown TypeError
    ∧ declared w'
      = declared w ++ resources_of_call m name b h opts (length (declared w))
    ∧ maps w' !! reg m w' = Some (es ++ [(b, length (arrays w))])
    ∧ arrays w' = arrays w ++ [[]]
    ∧ deref (arrays w') <$> es = registered m w.
Proof.
  intros Hw Hb. destruct (wf_live w m Hw) as [es Hes].
  assert (Ha : assoc b es = None).
  { apply assoc_None. unfold registered in Hb.
    by rewrite (contents_lookup w _ es), deref_fst in Hb. }
  cbv zeta. rewrite (onEvent_any_omitted m name b h opts w es Hes Ha).
  exists es. cbn [fst snd]. split_and!; try done.
  - rewrite reg_with_arrays, reg_with_maps, reg_with_declared. simpl.
    apply list_lookup_insert_eq. by eapply lookup_lt_Some.
  - unfold registered. rewrite (contents_lookup w _ es Hes).
    apply deref_unchanged. intros a Hin. simpl.
    apply lookup_app_l. by eapply wf_valid.
Qed.

(** C7, as the code has it.  The handler has no case for an empty list.
    If the [Map] it drains holds one, the read of [subscriptions[0].name]
    raises a [TypeError] at that bucket: the aggregates of the buckets
    before it have been declared, none after it is.  An empty list gets
    into the [Map] when [onEvent] is called without [args] on a bucket with
    nothing pending: the call declares its three resources, stores the new
    list and raises on [args.events]; the handler that runs next declares
    the aggregates of the buckets that were pending before and raises at
    that bucket.  As long as every call was given its [args], no bucket has
    an empty list and the handler returns. *)
Theorem empty_list_unguarded m w :
  (∀ es1 b a es2,
     maps w !! reg m w = Some (es1 ++ (b, a) :: es2) →
     (∀ e, e ∈ es1 → ∃ l, arrays w !! e.2 = Some l ∧ l ≠ []) →
     arrays w !! a = Some [] →
     (beforeExit m w).1 = Thrown TypeError
     ∧ declared (beforeExit m w).2
       = declared w ++ (aggregate <$> take (length es1) (registered m w)))
  ∧ (Reachable w →
     (Forall (λ e, e.2 ≠ []) (registered m w)
      ∧ (beforeExit m w).1 = Returned ())
     ∧ ∀ name b h opts,
         b ∉ (registered m w).*1 →
         let r := onEvent_any m name b h None opts w in
         r.1 = Thrown TypeError
         ∧ declared r.2
           = declared w
             ++ [LambdaFunction (name +:+ funcSuffix m) h opts;
                 EventSubscription
                   "aws-serverless:bucket:BucketEventSubscription"
                   name (length (declared w)) b opts;
                 Permission name (length (declared w))
                   "lambda:InvokeFunction" "s3.amazonaws.com"
                   (apply_s3_arn (bucket_id b)) (S (length (declared w)))]
         ∧ registered m r.2 = registered m w ++ [(b, [])]
         ∧ (beforeExit m r.2).1 = Thrown TypeError
         ∧ declared (beforeExit m r.2).2
           = declared r.2 ++ (aggregate <$> registered m w)
         ∧ registered m (beforeExit m r.2).2 = []).
Proof.
  split.
  - intros es1 b a es2 Hes Hes1 Ha.
    rewrite (beforeExit_empty_list m w es1 b a es2) by done.
    split; [done|]. simpl. do 2 f_equal. unfold registered.
    rewrite (contents_lookup w _ _ Hes), fmap_app.
    rewrite take_app_length' by (by rewrite length_fmap). done.
  - intros Hw%Reachable_wf. split.
    { split; [by apply registered_nonempty|]. by rewrite beforeExit_run. }
    intros name b h opts Hb.
    destruct (omitted_args_registered m name b h opts w Hw Hb)
      as (es & Hes & Hthrown & Hd & Hlive & Harr & Hreg).
    cbv zeta. set (w' := (onEvent_any m name b h None opts w).2) in *.
    assert (Hlast : arrays w' !! length (arrays w) = Some []).
    { rewrite Harr. by apply list_lookup_middle. }
    assert (Hes1 : ∀ e, e ∈ es → ∃ l, arrays w' !! e.2 = Some l ∧ l ≠ []).
    { intros [b' a'] Hin.
      destruct (wf_live_array w _ es b' a' Hw Hes Hin) as (l & Hl & Hne).
      exists l. split; [|done]. rewrite Harr. simpl.
      rewrite lookup_app_l; [done|by eapply lookup_lt_Some]. }
    rewrite (beforeExit_empty_list m w' es b (length (arrays w)) [])
      by done.
    split_and!; try done.
    + unfold registered at 1. rewrite (contents_lookup w' _ _ Hlive).
      rewrite fmap_app, Hreg. cbn [fmap list_fmap]. f_equal.
      unfold deref. cbn [fst snd]. by rewrite Hlast.
    + cbn [fst snd]. change (declared (with_declared ?d ?v)) with d.
      by rewrite Hreg.
    + cbn [snd]. unfold registered, contents.
      rewrite reg_with_declared. unfold swapped.
      rewrite reg_with_reg. simpl.
      change (maps (with_reg m ?r ?v)) with (maps (with_reg m r v)).
      rewrite maps_with_reg. simpl.
      by rewrite list_lookup_middle.
Qed.

Lemma empty_list_unguarded_witness :
  ((beforeExit bucket_ts omitted_args_then_c).1 = Thrown TypeError
   ∧ declared (beforeExit bucket_ts omitted_args_then_c).2
     = declared omitted_args_then_c
       ++ (aggregate <$> take 0 (registered bucket_ts omitted_args_then_c)))
  ∧ (Forall (λ e, e.2 ≠ []) (registered bucket_ts two_pending)
     ∧ (beforeExit bucket_ts two_pending).1 = Returned ())
  ∧ (let r := onEvent_any bucket_ts "x" B1 handler0 None None init in
     r.1 = Thrown TypeError
     ∧ declared r.2
       = declared init
         ++ [LambdaFunction ("x" +:+ funcSuffix bucket_ts) handler0 None;
             EventSubscription
               "aws-serverless:bucket:BucketEventSubscription"
               "x" (length (declared init)) B1 None;
             Permission "x" (length (declared init))
               "lambda:InvokeFunction" "s3.amazonaws.com"
               (apply_s3_arn (bucket_id B1)) (S (length (declared init)))]
     ∧ registered bucket_ts r.2 = registered bucket_ts init ++ [(B1, [])]
     ∧ (beforeExit bucket_ts r.2).1 = Thrown TypeError
     ∧ declared (beforeExit bucket_ts r.2).2
       = declared r.2 ++ (aggregate <$> registered bucket_ts init)
     ∧ registered bucket_ts (beforeExit bucket_ts r.2).2 = []).
Proof.
  split; [|split].
  - apply (proj1 (empty_list_unguarded bucket_ts omitted_args_then_c)
             [] B1 0 [(B2, 1)]).
    + reflexivity.
    + intros e He. by apply elem_of_nil in He.
    + reflexivity.
  - assert (Hw : Reachable two_pending)
      by apply Reachable_onEvent, Reachable_onEvent, Reachable_init.
    exact (proj1 (proj2 (empty_list_unguarded bucket_ts two_pending) Hw)).
  - exact (proj2 (proj2 (empty_list_unguarded bucket_ts init) Reachable_init)
             "x" B1 handler0 None (not_elem_of_nil B1)).
Defined.

(** C7 fails on the code.  A program calls [onEvent] of bucket.ts for [B1]
    without [args] and catches the [TypeError]; it then subscribes ["c"] to
    [B2], which returns.  The [Map] now holds an empty list under [B1],
    ahead of the request of ["c"] under [B2].  The handler does not pass
    over [B1]: it raises a [TypeError] there, declares no aggregate at all,
    and the request of ["c"] is in no registry any more. *)
Lemma omitted_args_then_handler_raises :
  (onEvent_any bucket_ts "x" B1 handler0 None None init).1 = Thrown TypeError
  ∧ (∃ s, (call call_c omitted_args).1 = Returned s)
  ∧ registered bucket_ts omitted_args_then_c
    = [(B1, []);
       (B2, [{| name := "c"; info_events := ["s3:ObjectCreated:Put"];
                info_filterPrefix := Some "logs/"; info_filterSuffix := None;
                lambdaFunctionArn := function_arn 3; permission := 5 |}])]
  ∧ (beforeExit bucket_ts omitted_args_then_c).1 = Thrown TypeError
  ∧ notifications (declared (beforeExit bucket_ts omitted_args_then_c).2) = []
  ∧ registered bucket_ts (beforeExit bucket_ts omitted_args_then_c).2 = [].
Proof.
  split_and!; [vm_compute; reflexivity|eexists; vm_compute; reflexivity
              |vm_compute; reflexivity..].
Qed.

(** ** The helpers *)

(** The literals TypeScript allows for [event] are not empty. *)
Lemma literals_nonempty :
  Forall (λ s, s ≠ "") (ObjectCreated_literals ++ ObjectRemoved_literals).
Proof. repeat constructor; discriminate. Qed.

Lemma js_or_Some x d : x ≠ "" → js_or (Some x) d = x.
Proof. intros H. unfold js_or. by rewrite decide_False. Qed.

Lemma registers_as_call c :
  registers_as (call c) (c_module c) (c_bucket c) (c_name c)
    (events (c_args c)) (filterPrefix (c_args c)) (filterSuffix (c_args c)).
Proof.
  intros w Hw%Reachable_wf.
  destruct (call_spec c w Hw) as (w' & Hrun & _ & _ & Hr & _).
  by eexists _, w'.
Qed.

Lemma names_first_aggregate_call c :
  names_first_aggregate (call c) (c_module c) (c_bucket c) (c_name c).
Proof.
  intros w rest Hw%Reachable_wf Hb.
  destruct (first_call_names_aggregate (c_module c) (c_bucket c) c [] rest w)
    as (ss & w2 & w3 & lfs & deps & Hrun & Hrun3 & Hn); try done.
  { intros c' Hc'. by apply elem_of_nil in Hc'. }
  apply calls_cons_inv in Hrun as (s & w1 & ss' & -> & Hcall & Hrest).
  by exists s, w1, ss', w2, w3, lfs, deps.
Qed.

Lemma helper_registers m name b h evs fp fs opts :
  registers_as
    (onEvent m name b h
       {| filterPrefix := fp; filterSuffix := fs; events := evs |} opts)
    m b name evs fp fs.
Proof.
  apply (registers_as_call
           {| c_module := m; c_name := name; c_bucket := b; c_handler := h;
              c_args := {| events := evs; filterPrefix := fp;
                           filterSuffix := fs |};
              c_opts := opts |}).
Qed.

(** C8.  The request each helper registers: [onPut] asks for
    ["s3:ObjectCreated:*"] and [onDelete] for ["s3:ObjectRemoved:*"], with
    or without [args]; [onObjectCreated] and [onObjectRemoved] ask for their
    category followed by ["*"] when [event] is omitted and by [X] when
    [event] is a qualifier [X]; the filters are the ones the caller gave.
    [X] is not the empty string: the literals TypeScript allows for [event]
    are all non-empty. *)
Theorem helper_events name b h opts fp fs X :
  X ≠ "" →
  let simple := {| simple_filterPrefix := fp; simple_filterSuffix := fs |} in
  registers_as (onPut name b h None opts) bucket_ts b
    (name +:+ "-put") ["s3:ObjectCreated:*"] None None
  ∧ registers_as (onPut name b h (Some simple) opts) bucket_ts b
      (name +:+ "-put") ["s3:ObjectCreated:*"] fp fs
  ∧ registers_as (onDelete name b h None opts) bucket_ts b
      (name +:+ "-delete") ["s3:ObjectRemoved:*"] None None
  ∧ registers_as (onDelete name b h (Some simple) opts) bucket_ts b
      (name +:+ "-delete") ["s3:ObjectRemoved:*"] fp fs
  ∧ registers_as (onObjectCreated name b h None opts) s3_bucket_ts b
      (name +:+ "-object-created") ["s3:ObjectCreated:*"] None None
  ∧ registers_as
      (onObjectCreated name b h
         (Some {| oc_filterPrefix := fp; oc_filterSuffix := fs;
                  oc_event := None |}) opts)
      s3_bucket_ts b (name +:+ "-object-created") ["s3:ObjectCreated:*"] fp fs
  ∧ registers_as
      (onObjectCreated name b h
         (Some {| oc_filterPrefix := fp; oc_filterSuffix := fs;
                  oc_event := Some X |}) opts)
      s3_bucket_ts b (name +:+ "-object-created")
      ["s3:ObjectCreated:" +:+ X] fp fs
  ∧ registers_as (onObjectRemoved name b h None opts) s3_bucket_ts b
      (name +:+ "-object-removed") ["s3:ObjectRemoved:*"] None None
  ∧ registers_as
      (onObjectRemoved name b h
         (Some {| or_filterPrefix := fp; or_filterSuffix := fs;
                  or_event := None |}) opts)
      s3_bucket_ts b (name +:+ "-object-removed") ["s3:ObjectRemoved:*"] fp fs
  ∧ registers_as
      (onObjectRemoved name b h
         (Some {| or_filterPrefix := fp; or_filterSuffix := fs;
                  or_event := Some X |}) opts)
      s3_bucket_ts b (name +:+ "-object-removed")
      ["s3:ObjectRemoved:" +:+ X] fp fs.
Proof.
  intros HX simple.
  unfold onPut, onDelete, onObjectCreated, onObjectRemoved.
  cbn [default from_option id simple_or_empty simple simple_filterPrefix
       simple_filterSuffix oc_event oc_filterPrefix oc_filterSuffix
       or_event or_filterPrefix or_filterSuffix].
  rewrite !js_or_Some by done.
  split_and!; apply helper_registers.
Qed.

Lemma helper_events_witness :
  ∃ s w',
    onObjectCreated "img" B1 handler0
      (Some {| oc_filterPrefix := Some "in/"; oc_filterSuffix := Some ".png";
               oc_event := Some "Put" |}) None init
    = (Returned s, w')
    ∧ registered s3_bucket_ts w'
      = register B1 {| name := "img-object-created";
                       info_events := ["s3:ObjectCreated:Put"];
                       info_filterPrefix := Some "in/";
                       info_filterSuffix := Some ".png";
                       lambdaFunctionArn := function_arn (sub_func s);
                       permission := sub_permission s |}
          (registered s3_bucket_ts init).
Proof.
  destruct (helper_events "img" B1 handler0 None (Some "in/") (Some ".png")
              "Put") as (_ & _ & _ & _ & _ & _ & H & _); [discriminate|].
  apply (H init Reachable_init).
Defined.

(** C9, as the code has it.  An empty qualifier is not rejected:
    [args.event || "*"] takes the empty string for an omitted [event], so
    the helper returns and registers a request for every event of its
    category. *)
Theorem empty_qualifier_defaults name b h opts fp fs :
  registers_as
    (onObjectCreated name b h
       (Some {| oc_filterPrefix := fp; oc_filterSuffix := fs;
                oc_event := Some "" |}) opts)
    s3_bucket_ts b (name +:+ "-object-created") ["s3:ObjectCreated:*"] fp fs
  ∧ registers_as
      (onObjectRemoved name b h
         (Some {| or_filterPrefix := fp; or_filterSuffix := fs;
                  or_event := Some "" |}) opts)
      s3_bucket_ts b (name +:+ "-object-removed") ["s3:ObjectRemoved:*"]
      fp fs.
Proof. split; apply helper_registers. Qed.

Lemma empty_qualifier_defaults_witness :
  ∃ s w',
    onObjectRemoved "img" B1 handler0
      (Some {| or_filterPrefix := None; or_filterSuffix := Some ".png";
               or_event := Some "" |}) None two_pending
    = (Returned s, w')
    ∧ registered s3_bucket_ts w'
      = register B1 {| name := "img-object-removed";
                       info_events := ["s3:ObjectRemoved:*"];
                       info_filterPrefix := None;
                       info_filterSuffix := Some ".png";
                       lambdaFunctionArn := function_arn (sub_func s);
                       permission := sub_permission s |}
          (registered s3_bucket_ts two_pending).
Proof.
  apply (proj2 (empty_qualifier_defaults "img" B1 handler0 None None
                  (Some ".png")) two_pending).
  apply Reachable_onEvent, Reachable_onEvent, Reachable_init.
Defined.

(** C9 fails on the code: [onObjectCreated] called with the empty string as
    [event] returns, and the request it has registered asks for
    ["s3:ObjectCreated:*"]. *)
Lemma empty_qualifier_accepted :
  let args := {| oc_filterPrefix := None; oc_filterSuffix := None;
                 oc_event := Some "" |} in
  let r := onObjectCreated "x" B1 handler0 (Some args) None init in
  r.1 = Returned {| sub_self := 1; sub_func := 0; sub_permission := 2;
                    sub_bucket := B1 |}
  ∧ registered s3_bucket_ts r.2
    = [(B1, [{| name := "x-object-created";
                info_events := ["s3:ObjectCreated:*"];
                info_filterPrefix := None; info_filterSuffix := None;
                lambdaFunctionArn := function_arn 0; permission := 2 |}])].
Proof. split; vm_compute; reflexivity. Qed.

Lemma helper_names m name b h args opts :
  names_first_aggregate (onEvent m name b h args opts) m b name.
Proof.
  apply (names_first_aggregate_call
           {| c_module := m; c_name := name; c_bucket := b; c_handler := h;
              c_args := args; c_opts := opts |}).
Qed.

(** C10.  Each helper registers its request under the name it was given
    followed by its own suffix, and when the helper is the first to
    register for a bucket the aggregate of that bucket is declared under
    that suffixed name. *)
Theorem helpers_register_suffixed name b h opts put del created removed :
  ((∃ evs fp fs, registers_as (onPut name b h put opts) bucket_ts b
                   (name +:+ "-put") evs fp fs)
   ∧ names_first_aggregate (onPut name b h put opts) bucket_ts b
       (name +:+ "-put"))
  ∧ ((∃ evs fp fs, registers_as (onDelete name b h del opts) bucket_ts b
                     (name +:+ "-delete") evs fp fs)
     ∧ names_first_aggregate (onDelete name b h del opts) bucket_ts b
         (name +:+ "-delete"))
  ∧ ((∃ evs fp fs, registers_as (onObjectCreated name b h created opts)
                     s3_bucket_ts b (name +:+ "-object-created") evs fp fs)
     ∧ names_first_aggregate (onObjectCreated name b h created opts)
         s3_bucket_ts b (name +:+ "-object-created"))
  ∧ ((∃ evs fp fs, registers_as (onObjectRemoved name b h removed opts)
                     s3_bucket_ts b (name +:+ "-object-removed") evs fp fs)
     ∧ names_first_aggregate (onObjectRemoved name b h removed opts)
         s3_bucket_ts b (name +:+ "-object-removed")).
Proof.
  unfold onPut, onDelete, onObjectCreated, onObjectRemoved.
  split_and!; try apply helper_names;
    eexists _, _, _; apply helper_registers.
Qed.

Lemma helpers_register_suffixed_witness :
  ∃ s w1 ss w2 w3 lfs deps,
    onPut "a" B1 handler0 None None init = (Returned s, w1)
    ∧ calls [call_c; call_b] w1 = (Returned ss, w2)
    ∧ beforeExit bucket_ts w2 = (Returned (), w3)
    ∧ notifications_for B1 (declared_since init w3)
      = [BucketNotification "a-put" (bucket_id B1) lfs B1 deps].
Proof.
  apply (proj2 (proj1 (helpers_register_suffixed "a" B1 handler0 None
                         None None None None)) init [call_c; call_b]).
  - apply Reachable_init.
  - apply not_elem_of_nil.
Defined.

(** * Further properties of the code *)

(** ** One subscribe call *)

(** X1.  A subscribe call appends its request to the list its file holds
    for its bucket, starting the list when there is none; the lists of the
    other buckets and the whole registry of the other file stay as they
    were. *)
Theorem subscribe_appends_to_its_bucket c w :
  Reachable w →
  ∃ s w',
    call c w = (Returned s, w')
    ∧ lookup_reg (c_bucket c) (registered (c_module c) w')
      = Some (default [] (lookup_reg (c_bucket c) (registered (c_module c) w))
                ++ [info_of c s])
    ∧ (∀ b, b ≠ c_bucket c →
            lookup_reg b (registered (c_module c) w')
            = lookup_reg b (registered (c_module c) w))
    ∧ (∀ m, m ≠ c_module c → registered m w' = registered m w).
Proof.
  intros Hw%Reachable_wf.
  destruct (call_spec c w Hw) as (w' & Hrun & _ & _ & Hr & _).
  eexists _, w'. split; [done|]. rewrite Hr. split; [|split].
  - apply lookup_reg_register.
  - intros b Hb. by apply lookup_reg_register_ne.
  - intros m Hm. by eapply call_registered_ne.
Qed.

Lemma subscribe_appends_to_its_bucket_witness :
  ∃ s w',
    call call_b two_pending = (Returned s, w')
    ∧ lookup_reg (c_bucket call_b) (registered (c_module call_b) w')
      = Some (default [] (lookup_reg (c_bucket call_b)
                            (registered (c_module call_b) two_pending))
                ++ [info_of call_b s])
    ∧ (∀ b, b ≠ c_bucket call_b →
            lookup_reg b (registered (c_module call_b) w')
            = lookup_reg b (registered (c_module call_b) two_pending))
    ∧ (∀ m, m ≠ c_module call_b →
            registered m w' = registered m two_pending).
Proof.
  apply (subscribe_appends_to_its_bucket call_b two_pending).
  apply Reachable_onEvent, Reachable_onEvent, Reachable_init.
Defined.

(** ** Subscribe calls alone *)

Lemma calls_length cs : ∀ w,
  wf w →
  length (declared (calls cs w).2) = length (declared w) + 3 * length cs.
Proof.
  induction cs as [|c cs IH]; intros w Hw; [simpl; lia|].
  destruct (call_spec c w Hw) as (w1 & Hrun & Hwf1 & Hd & _).
  specialize (IH w1 Hwf1). cbn [calls]. unfold bind. rewrite Hrun.
  destruct (calls cs w1) as [[ss|e] w2]; simpl in *;
    rewrite IH, Hd, length_app; simpl; lia.
Qed.

(** X2.  Subscribe calls never declare an aggregate themselves: however
    many are made, each adds three resources to the log, none of which is a
    [BucketNotification]; the aggregates wait for the handler. *)
Theorem calls_declare_no_aggregate cs w :
  Reachable w →
  ∃ ss w',
    calls cs w = (Returned ss, w')
    ∧ length (declared_since w w') = 3 * length cs
    ∧ notifications (declared_since w w') = [].
Proof.
  intros Hw%Reachable_wf.
  destruct (calls_spec cs w Hw)
    as (ss & w' & ext & Hrun & _ & _ & Hd & Hn & _).
  exists ss, w'. split; [done|].
  rewrite (declared_since_app _ _ _ Hd). split; [|done].
  pose proof (calls_length cs w Hw) as Hlen.
  rewrite Hrun in Hlen. simpl in Hlen. rewrite Hd, length_app in Hlen. lia.
Qed.

Lemma calls_declare_no_aggregate_witness :
  ∃ ss w',
    calls [call_a; call_c; call_d; call_b] init = (Returned ss, w')
    ∧ length (declared_since init w') = 3 * 4
    ∧ notifications (declared_since init w') = [].
Proof.
  apply (calls_declare_no_aggregate [call_a; call_c; call_d; call_b] init).
  apply Reachable_init.
Defined.

(** ** The order of the aggregates *)

Lemma keys_register_all l : ∀ r : Registry,
  (register_all l r).*1 = r.*1 ++ filter (λ b, b ∉ r.*1) (nub l.*1).
Proof.
  induction l as [|[b x] l IH]; intros r.
  - simpl. by rewrite app_nil_r.
  - change (register_all ((b, x) :: l) r)
      with (register_all l (register b x r)).
    rewrite IH, keys_register, fmap_cons. cbn [nub fst].
    rewrite filter_cons. destruct (decide (b ∈ r.*1)) as [Hin|Hin].
    + rewrite decide_False by tauto. f_equal.
      rewrite list_filter_filter. apply list_filter_iff.
      intros b'. split; [|tauto]. intros Hb'. split; [done|].
      by intros ->.
    + rewrite decide_True by done. rewrite <- app_assoc. f_equal.
      cbn [app]. f_equal. rewrite list_filter_filter.
      apply list_filter_iff. intros b'.
      rewrite not_elem_of_app, list_elem_of_singleton. tauto.
Qed.

Lemma filter_all {A} (P : A → Prop) `{!∀ x, Decision (P x)} (l : list A) :
  (∀ x, P x) → filter P l = l.
Proof.
  intros HP. induction l as [|x l IH]; [done|].
  by rewrite filter_cons_True, IH.
Qed.

Lemma requests_keys m cs : ∀ ss,
  length ss = length cs → (requests m cs ss).*1 = buckets_of m cs.
Proof.
  unfold buckets_of.
  induction cs as [|c cs IH]; intros [|s ss] Hlen; try done.
  injection Hlen as Hlen. rewrite requests_cons, filter_cons.
  case_decide; [rewrite !fmap_cons; cbn [request_of fst]; f_equal|];
    by apply IH.
Qed.

Lemma parents_aggregate (r : Registry) : parents (aggregate <$> r) = r.*1.
Proof.
  unfold parents. induction r as [|e r IH]; [done|].
  rewrite !fmap_cons. cbn [omap list_omap aggregate notification_bucket].
  f_equal. apply IH.
Qed.

Lemma parents_notifications d : parents (notifications d) = parents d.
Proof.
  unfold parents, notifications. induction d as [|r d IH]; [done|].
  destruct r;
    try (rewrite filter_cons_False by (by intros [? ?]); apply IH).
  rewrite filter_cons_True by (by eexists).
  cbn [omap list_omap notification_bucket]. f_equal. apply IH.
Qed.

(** X3.  One aggregate per bucket, in the order the buckets were first
    subscribed to: after subscribe calls on an empty registry of file [m],
    the parents of the aggregates the handler of [m] declares are the
    buckets of the calls made through [m], each once, at the place of its
    first call. *)
Theorem aggregates_follow_first_subscription m cs w :
  Reachable w →
  registered m w = [] →
  ∃ ss w1 w2,
    calls cs w = (Returned ss, w1)
    ∧ beforeExit m w1 = (Returned (), w2)
    ∧ parents (declared_since w w2) = nub (buckets_of m cs).
Proof.
  intros Hw%Reachable_wf Hempty.
  destruct (pass_after_calls m cs w Hw)
    as (ss & w1 & w2 & Hrun & Hlen & _ & Hrun2 & Hd & _).
  exists ss, w1, w2. split; [done|]. split; [done|].
  rewrite <- parents_notifications, Hd, parents_aggregate.
  rewrite keys_register_all, Hempty, requests_keys by done.
  apply filter_all. intros b. apply not_elem_of_nil.
Qed.

Lemma aggregates_follow_first_subscription_witness :
  ∃ ss w1 w2,
    calls [call_c; call_a; call_d; call_c; call_b] init = (Returned ss, w1)
    ∧ beforeExit bucket_ts w1 = (Returned (), w2)
    ∧ parents (declared_since init w2)
      = nub (buckets_of bucket_ts [call_c; call_a; call_d; call_c; call_b]).
Proof.
  apply (aggregates_follow_first_subscription bucket_ts
           [call_c; call_a; call_d; call_c; call_b] init).
  - apply Reachable_init.
  - reflexivity.
Defined.

(** ** The handlers of the two files *)

(** X4.  The handlers of the two files do not interfere.  Run one after the
    other in either order, each declares the aggregates of its own registry
    as it was before both, and both registries are empty afterwards: the two
    orders declare the same aggregates, grouped by file. *)
Theorem handlers_do_not_interfere m m' w :
  Reachable w → m ≠ m' →
  ∃ w1 w2,
    beforeExit m w = (Returned (), w1)
    ∧ beforeExit m' w1 = (Returned (), w2)
    ∧ declared_since w w2
      = (aggregate <$> registered m w) ++ (aggregate <$> registered m' w)
    ∧ registered m w2 = []
    ∧ registered m' w2 = [].
Proof.
  intros Hw%Reachable_wf Hne.
  destruct (beforeExit_spec m w Hw) as (w1 & Hrun1 & Hwf1 & Hd1 & Hr1 & Ho1).
  destruct (beforeExit_spec m' w1 Hwf1)
    as (w2 & Hrun2 & _ & Hd2 & Hr2 & Ho2).
  exists w1, w2. split; [done|]. split; [done|]. split; [|split; [|done]].
  - rewrite Hd1, (Ho1 m' Hne), <- app_assoc in Hd2.
    by rewrite (declared_since_app _ _ _ Hd2).
  - rewrite Ho2 by done. done.
Qed.

Lemma handlers_do_not_interfere_witness :
  ∃ w1 w2,
    beforeExit s3_bucket_ts (call call_d two_pending).2 = (Returned (), w1)
    ∧ beforeExit bucket_ts w1 = (Returned (), w2)
    ∧ declared_since (call call_d two_pending).2 w2
      = (aggregate <$> registered s3_bucket_ts (call call_d two_pending).2)
        ++ (aggregate <$> registered bucket_ts (call call_d two_pending).2)
    ∧ registered s3_bucket_ts w2 = []
    ∧ registered bucket_ts w2 = [].
Proof.
  apply (handlers_do_not_interfere s3_bucket_ts bucket_ts
           (call call_d two_pending).2).
  - apply Reachable_onEvent, Reachable_onEvent, Reachable_onEvent,
      Reachable_init.
  - discriminate.
Defined.

(** ** What every aggregate in the log is wired to *)

Lemma wired_mono d ext b s : wired d b s → wired (d ++ ext) b s.
Proof.
  intros (f & Harn & Hp & fname & h & opts & Hf).
  exists f. split; [done|]. split.
  - rewrite lookup_app_l; [done|by eapply lookup_lt_Some].
  - exists fname, h, opts.
    rewrite lookup_app_l; [done|by eapply lookup_lt_Some].
Qed.

Lemma registry_wired_mono d ext (r : Registry) :
  registry_wired d r → registry_wired (d ++ ext) r.
Proof.
  unfold registry_wired. intros H. eapply Forall_impl; [exact H|].
  intros e [Hne He]. split; [done|].
  eapply Forall_impl; [exact He|]. intros s. apply wired_mono.
Qed.

Lemma registry_wired_register d b x (r : Registry) :
  registry_wired d r → wired d b x → registry_wired d (register b x r).
Proof.
  unfold registry_wired. intros Hr Hx.
  induction r as [|[b' l] r IH]; cbn [register].
  - repeat constructor; done.
  - apply Forall_cons in Hr as [[Hne Hl] Hr]. case_decide; subst.
    + constructor; [|done]. simpl in *. split; [by destruct l|].
      apply Forall_app. split; [done|]. by constructor.
    + constructor; [done|]. by apply IH.
Qed.

Lemma entry_wired_mono d ext parent lf dep :
  entry_wired d parent lf dep → entry_wired (d ++ ext) parent lf dep.
Proof.
  intros (pname & f & this & Hp & Harn & fname & h & opts & Hf).
  exists pname, f, this. split; [|split; [done|]].
  - rewrite lookup_app_l; [done|by eapply lookup_lt_Some].
  - exists fname, h, opts.
    rewrite lookup_app_l; [done|by eapply lookup_lt_Some].
Qed.

Lemma well_wired_mono d ext r : well_wired d r → well_wired (d ++ ext) r.
Proof.
  destruct r as [| | |rname bucket lfs parent deps]; try done.
  intros (Hb & (first & f & this & Hhead & Hp) & Hall).
  split; [done|]. split.
  - exists first, f, this. split; [done|].
    rewrite lookup_app_l; [done|by eapply lookup_lt_Some].
  - eapply Forall2_impl; [exact Hall|]. intros lf dep. apply entry_wired_mono.
Qed.

Lemma aggregate_well_wired d b l :
  l ≠ [] → Forall (wired d b) l → well_wired d (aggregate (b, l)).
Proof.
  intros Hne Hl. destruct l as [|s l]; [done|].
  unfold aggregate. cbn [fst snd]. split; [done|]. split.
  - apply Forall_cons in Hl as [(f & _ & Hp & _) _].
    exists (permission s), f, (S f). by split.
  - apply Forall2_fmap, Forall_Forall2_diag.
    eapply Forall_impl; [exact Hl|].
    intros s' (f & Harn & Hp & Hf). by exists (name s'), f, (S f).
Qed.

Lemma call_wired c w :
  wf w →
  wired (declared (call c w).2) (c_bucket c)
    (info_of c (object_of_call (c_bucket c) (length (declared w)))).
Proof.
  intros Hw. destruct (call_spec c w Hw) as (w' & -> & _ & Hd & _).
  cbn [snd]. rewrite Hd. exists (length (declared w)).
  split; [done|]. split.
  - cbn [info_of permission sub_permission object_of_call name].
    rewrite lookup_app_r by lia.
    by replace (S (S (length (declared w))) - length (declared w)) with 2
      by lia.
  - eexists _, _, _. rewrite lookup_app_r by lia.
    by rewrite Nat.sub_diag.
Qed.

(** The registries and the log stay wired along every run. *)
Lemma Reachable_wired w :
  Reachable w →
  Forall (well_wired (declared w)) (declared w)
  ∧ ∀ m, registry_wired (declared w) (registered m w).
Proof.
  induction 1 as [|w c Hw [IHd IHr]|w m Hw [IHd IHr]].
  - split; [constructor|]. intros []; constructor.
  - pose proof (Reachable_wf w Hw) as Hwf.
    pose proof (call_wired c w Hwf) as Hc.
    destruct (call_spec c w Hwf) as (w' & Hrun & _ & Hd & Hr & _).
    rewrite Hrun in *. cbn [snd] in *. split.
    + rewrite Hd at 2. apply Forall_app. split.
      * rewrite Hd. eapply Forall_impl; [exact IHd|]. intros r.
        apply well_wired_mono.
      * repeat constructor.
    + intros m. destruct (decide (m = c_module c)) as [->|Hne].
      * rewrite Hr. apply registry_wired_register; [|done].
        rewrite Hd. apply registry_wired_mono, IHr.
      * rewrite (call_registered_ne c w w' _ m Hwf Hrun Hne).
        rewrite Hd. apply registry_wired_mono, IHr.
  - pose proof (Reachable_wf w Hw) as Hwf.
    destruct (beforeExit_spec m w Hwf) as (w' & Hrun & _ & Hd & Hr & Ho).
    rewrite Hrun. cbn [snd]. split.
    + rewrite Hd at 2. apply Forall_app. split.
      * rewrite Hd. eapply Forall_impl; [exact IHd|]. intros r.
        apply well_wired_mono.
      * apply Forall_fmap. rewrite Hd.
        pose proof (registry_wired_mono _ (aggregate <$> registered m w) _
                      (IHr m)) as Hreg.
        eapply Forall_impl; [exact Hreg|]. intros [b l] [Hne Hl].
        by apply aggregate_well_wired.
    + intros m'. destruct (decide (m = m')) as [<-|Hne].
      * rewrite Hr. constructor.
      * rewrite (Ho m' Hne), Hd. apply registry_wired_mono, IHr.
Qed.

(** X5.  Every aggregate ever declared is wired consistently.  Its [bucket]
    is the id of its parent; [lambdaFunctions] and [dependsOn] go in pairs:
    the handle at a position designates a declared permission that lets
    the parent bucket invoke a declared function, and the entry
    at that position carries the ARN of that same function; and the
    aggregate has the logical name of the first permission it depends
    on. *)
Theorem aggregates_are_wired w i r :
  Reachable w → declared w !! i = Some r → well_wired (declared w) r.
Proof.
  intros [Hd _]%Reachable_wired Hi.
  eapply Forall_forall; [exact Hd|]. by eapply list_elem_of_lookup_2.
Qed.

Lemma aggregates_are_wired_witness :
  well_wired (declared (run late_registration init).2)
    (BucketNotification "b" (bucket_id B1)
       [{| lf_events := ["s3:ObjectRemoved:*"]; lf_filterPrefix := None;
           lf_filterSuffix := None; lf_lambdaFunctionArn := function_arn 4 |}]
       B1 [6]).
Proof.
  apply (aggregates_are_wired (run late_registration init).2 7).
  - apply Reachable_run, Reachable_init.
  - reflexivity.
Defined.

(** ** Whole runs *)

Lemma step_spec s w :
  wf w →
  ∃ w' ext,
    step s w = (Returned (), w')
    ∧ wf w'
    ∧ declared w' = declared w ++ ext
    ∧ w' = match s with
           | DoCall c => (call c w).2
           | Fire m => (beforeExit m w).2
           end.
Proof.
  intros Hw. destruct s as [c|m].
  - destruct (call_spec c w Hw) as (w' & Hrun & Hwf' & Hd & _).
    exists w', (resources_of_call (c_module c) (c_name c) (c_bucket c)
                  (c_handler c) (c_opts c) (length (declared w))).
    cbn [step]. unfold bind, ret. by rewrite Hrun.
  - destruct (beforeExit_spec m w Hw) as (w' & Hrun & Hwf' & Hd & _).
    exists w', (aggregate <$> registered m w). cbn [step]. by rewrite Hrun.
Qed.

(** X6.  A run never raises and never takes anything back: every sequence
    of subscribe calls and handler runs, from any state of a run, ends
    without an exception in a state of a run, and the log it leaves starts
    with the log it found, so a handle keeps designating the resource it
    was issued for. *)
Theorem runs_complete_and_only_append tr w :
  Reachable w →
  ∃ w' ext,
    run tr w = (Returned (), w')
    ∧ Reachable w'
    ∧ declared w' = declared w ++ ext
    ∧ ∀ i r, declared w !! i = Some r → declared w' !! i = Some r.
Proof.
  revert w. unfold run. induction tr as [|s tr IH]; intros w Hw.
  - exists w, []. rewrite app_nil_r. by split_and!.
  - destruct (step_spec s w (Reachable_wf w Hw))
      as (w1 & ext1 & Hstep & _ & Hd1 & Hw1).
    assert (Hr1 : Reachable w1).
    { rewrite Hw1. destruct s; by constructor. }
    destruct (IH w1 Hr1) as (w' & ext & Hrun & Hr' & Hd & _).
    exists w', (ext1 ++ ext). cbn [for_of]. unfold bind. rewrite Hstep.
    split; [done|]. split; [done|].
    assert (Hd' : declared w' = declared w ++ ext1 ++ ext)
      by (by rewrite Hd, Hd1, app_assoc).
    split; [done|]. intros i r Hi. rewrite Hd'.
    rewrite lookup_app_l; [done|by eapply lookup_lt_Some].
Qed.

Lemma runs_complete_and_only_append_witness :
  ∃ w' ext,
    run late_registration two_pending = (Returned (), w')
    ∧ Reachable w'
    ∧ declared w' = declared two_pending ++ ext
    ∧ ∀ i r, declared two_pending !! i = Some r → declared w' !! i = Some r.
Proof.
  apply (runs_complete_and_only_append late_registration two_pending).
  apply Reachable_onEvent, Reachable_onEvent, Reachable_init.
Defined.

Lemma notifications_for_app b d d' :
  notifications_for b (d ++ d')
  = notifications_for b d ++ notifications_for b d'.
Proof. apply filter_app. Qed.

Lemma step_keeps_bucket_out b s w :
  wf w → ¬ subscribes_to b s →
  (∀ m, b ∉ (registered m w).*1) →
  notifications_for b (declared w) = [] →
  ∃ w', step s w = (Returned (), w')
    ∧ wf w'
    ∧ (∀ m, b ∉ (registered m w').*1)
    ∧ notifications_for b (declared w') = [].
Proof.
  intros Hw Hs Hout Hn. destruct s as [c|m]; cbn [subscribes_to] in Hs.
  - destruct (call_spec c w Hw) as (w' & Hrun & Hwf' & Hd & Hr & _).
    exists w'. cbn [step]. unfold bind, ret. rewrite Hrun.
    split; [done|]. split; [done|]. split.
    + intros m. destruct (decide (m = c_module c)) as [->|Hne].
      * rewrite Hr, keys_register. case_decide; [apply Hout|].
        rewrite not_elem_of_app, list_elem_of_singleton.
        split; [apply Hout|]. by intros ->.
      * rewrite (call_registered_ne c w w' _ m Hw Hrun Hne). apply Hout.
    + by rewrite Hd, notifications_for_app, Hn.
  - destruct (beforeExit_spec m w Hw) as (w' & Hrun & Hwf' & Hd & Hr & Ho).
    exists w'. cbn [step]. rewrite Hrun.
    split; [done|]. split; [done|]. split.
    + intros m'. destruct (decide (m = m')) as [<-|Hne].
      * rewrite Hr. apply not_elem_of_nil.
      * rewrite (Ho m' Hne). apply Hout.
    + rewrite Hd, notifications_for_app, Hn, notifications_for_aggregate.
      rewrite pending_lookup by (by apply registered_NoDup).
      by rewrite (proj2 (lookup_reg_None b _) (Hout m)).
Qed.

Lemma run_keeps_bucket_out b tr : ∀ w,
  wf w → Forall (λ s, ¬ subscribes_to b s) tr →
  (∀ m, b ∉ (registered m w).*1) →
  notifications_for b (declared w) = [] →
  notifications_for b (declared (run tr w).2) = [].
Proof.
  unfold run. induction tr as [|s tr IH]; intros w Hw Htr Hout Hn; [done|].
  apply Forall_cons in Htr as [Hs Htr].
  destruct (step_keeps_bucket_out b s w Hw Hs Hout Hn)
    as (w' & Hstep & Hwf' & Hout' & Hn').
  cbn [for_of]. unfold bind. rewrite Hstep. by apply IH.
Qed.

(** X7.  A bucket nobody subscribes to never gets an aggregate: in a run
    from the start of the program none of whose subscribe calls is for
    [b], however often the handlers run, the log holds no
    [BucketNotification] with parent [b]. *)
Theorem no_subscription_no_aggregate b tr :
  Forall (λ s, ¬ subscribes_to b s) tr →
  notifications_for b (declared (run tr init).2) = [].
Proof.
  intros Htr. apply run_keeps_bucket_out; try done.
  - apply wf_init.
  - intros []; apply not_elem_of_nil.
Qed.

Lemma no_subscription_no_aggregate_witness :
  notifications_for B2 (declared (run run_without_B2 init).2) = [].
Proof.
  apply (no_subscription_no_aggregate B2 run_without_B2).
  repeat constructor; simpl; (discriminate || tauto).
Defined.

(** ** More on the helpers *)

Lemma js_or_nonempty x d : d ≠ "" → js_or x d ≠ "".
Proof.
  intros Hd. unfold js_or. destruct x as [s|]; [|done]. by case_decide.
Qed.

(** X8.  Whatever arguments a helper is given, the request it registers has
    exactly one event and the filters of the caller (none when [args] is
    left out).  The event of [onPut] is ["s3:ObjectCreated:*"] and that of
    [onDelete] ["s3:ObjectRemoved:*"].  The event of [onObjectCreated] is
    ["s3:ObjectCreated:"] followed by the [event] of the caller when one is
    given and is not empty, and ["s3:ObjectCreated:*"] when [args] or its
    [event] is left out or the [event] is the empty string; likewise
    [onObjectRemoved] with ["s3:ObjectRemoved:"]. *)
Theorem helper_event_is_well_formed name b h opts put del created removed :
  registers_as (onPut name b h put opts) bucket_ts b (name +:+ "-put")
    ["s3:ObjectCreated:*"]
    (put ≫= simple_filterPrefix) (put ≫= simple_filterSuffix)
  ∧ registers_as (onDelete name b h del opts) bucket_ts b (name +:+ "-delete")
      ["s3:ObjectRemoved:*"]
      (del ≫= simple_filterPrefix) (del ≫= simple_filterSuffix)
  ∧ (∀ ev, created ≫= oc_event = Some ev → ev ≠ "" →
       registers_as (onObjectCreated name b h created opts) s3_bucket_ts b
         (name +:+ "-object-created") ["s3:ObjectCreated:" +:+ ev]
         (created ≫= oc_filterPrefix) (created ≫= oc_filterSuffix))
  ∧ (created ≫= oc_event = None ∨ created ≫= oc_event = Some "" →
       registers_as (onObjectCreated name b h created opts) s3_bucket_ts b
         (name +:+ "-object-created") ["s3:ObjectCreated:*"]
         (created ≫= oc_filterPrefix) (created ≫= oc_filterSuffix))
  ∧ (∀ ev, removed ≫= or_event = Some ev → ev ≠ "" →
       registers_as (onObjectRemoved name b h removed opts) s3_bucket_ts b
         (name +:+ "-object-removed") ["s3:ObjectRemoved:" +:+ ev]
         (removed ≫= or_filterPrefix) (removed ≫= or_filterSuffix))
  ∧ (removed ≫= or_event = None ∨ removed ≫= or_event = Some "" →
       registers_as (onObjectRemoved name b h removed opts) s3_bucket_ts b
         (name +:+ "-object-removed") ["s3:ObjectRemoved:*"]
         (removed ≫= or_filterPrefix) (removed ≫= or_filterSuffix)).
Proof.
  unfold onPut, onDelete, onObjectCreated, onObjectRemoved.
  split_and!.
  - destruct put as [[fp fs]|]; apply helper_registers.
  - destruct del as [[fp fs]|]; apply helper_registers.
  - intros ev Hev Hne. destruct created as [[fp fs [ev'|]]|]; try done.
    injection Hev as ->. cbv zeta. cbn [default from_option id oc_event]. rewrite js_or_Some by done.
    apply helper_registers.
  - intros Hev. destruct created as [[fp fs [ev'|]]|].
    + destruct Hev as [Hev|Hev]; [done|]. injection Hev as ->.
      apply helper_registers.
    + apply helper_registers.
    + apply helper_registers.
  - intros ev Hev Hne. destruct removed as [[fp fs [ev'|]]|]; try done.
    injection Hev as ->. cbv zeta. cbn [default from_option id or_event]. rewrite js_or_Some by done.
    apply helper_registers.
  - intros Hev. destruct removed as [[fp fs [ev'|]]|].
    + destruct Hev as [Hev|Hev]; [done|]. injection Hev as ->.
      apply helper_registers.
    + apply helper_registers.
    + apply helper_registers.
Qed.

Lemma helper_event_is_well_formed_witness :
  (∃ s w',
     onObjectRemoved "img" B1 handler0
       (Some {| or_filterPrefix := None; or_filterSuffix := Some ".png";
                or_event := Some "Delete" |}) None two_pending
     = (Returned s, w')
     ∧ registered s3_bucket_ts w'
       = register B1 {| name := "img" +:+ "-object-removed";
                        info_events := ["s3:ObjectRemoved:" +:+ "Delete"];
                        info_filterPrefix := None;
                        info_filterSuffix := Some ".png";
                        lambdaFunctionArn := function_arn (sub_func s);
                        permission := sub_permission s |}
           (registered s3_bucket_ts two_pending))
  ∧ (∃ s w',
       onObjectCreated "img" B1 handler0
         (Some {| oc_filterPrefix := Some "in/"; oc_filterSuffix := None;
                  oc_event := Some "" |}) None two_pending
       = (Returned s, w')
       ∧ registered s3_bucket_ts w'
         = register B1 {| name := "img" +:+ "-object-created";
                          info_events := ["s3:ObjectCreated:*"];
                          info_filterPrefix := Some "in/";
                          info_filterSuffix := None;
                          lambdaFunctionArn := function_arn (sub_func s);
                          permission := sub_permission s |}
             (registered s3_bucket_ts two_pending)).
Proof.
  assert (Hw : Reachable two_pending)
    by apply Reachable_onEvent, Reachable_onEvent, Reachable_init.
  pose proof (helper_event_is_well_formed "img" B1 handler0 None None None
                (Some {| oc_filterPrefix := Some "in/";
                         oc_filterSuffix := None; oc_event := Some "" |})
                (Some {| or_filterPrefix := None;
                         or_filterSuffix := Some ".png";
                         or_event := Some "Delete" |}))
    as (_ & _ & _ & Hc & Hr & _).
  split.
  - apply (Hr "Delete"); [reflexivity|discriminate|exact Hw].
  - apply Hc; [right; reflexivity|exact Hw].
Defined.

Lemma append_assoc (s1 s2 s3 : string) :
  (s1 +:+ s2) +:+ s3 = s1 +:+ (s2 +:+ s3).
Proof.
  induction s1 as [|a s1 IH]; [done|].
  change (String a ((s1 +:+ s2) +:+ s3) = String a (s1 +:+ (s2 +:+ s3))).
  by rewrite IH.
Qed.

Lemma append_inj (s s1 s2 : string) : s +:+ s1 = s +:+ s2 → s1 = s2.
Proof.
  induction s as [|a s IH]; [done|].
  change (String a (s +:+ s1) = String a (s +:+ s2) → s1 = s2).
  intros [= H]. auto.
Qed.

(** X9.  The four helpers can be given the same [name] for the same
    bucket: the twelve resources they declare then differ pairwise in type
    or in logical name. *)
Theorem helpers_do_not_collide name b h put del created removed opts w :
  Reachable w →
  ∃ w',
    all_helpers name b h put del created removed opts w = (Returned (), w')
    ∧ length (declared_since w w') = 12
    ∧ NoDup (type_and_name <$> declared_since w w').
Proof.
  intros Hw%Reachable_wf.
  unfold all_helpers, onPut, onDelete, onObjectCreated, onObjectRemoved.
  destruct (onEvent_spec bucket_ts (name +:+ "-put") b h
              {| filterPrefix := simple_filterPrefix (simple_or_empty put);
                 filterSuffix := simple_filterSuffix (simple_or_empty put);
                 events := ["s3:ObjectCreated:*"] |} opts w Hw)
    as (w1 & Hrun1 & Hwf1 & Hd1 & _).
  destruct (onEvent_spec bucket_ts (name +:+ "-delete") b h
              {| filterPrefix := simple_filterPrefix (simple_or_empty del);
                 filterSuffix := simple_filterSuffix (simple_or_empty del);
                 events := ["s3:ObjectRemoved:*"] |} opts w1 Hwf1)
    as (w2 & Hrun2 & Hwf2 & Hd2 & _).
  eassert (H3 := onEvent_spec s3_bucket_ts (name +:+ "-object-created") b h
                   _ opts w2 Hwf2).
  destruct H3 as (w3 & Hrun3 & Hwf3 & Hd3 & _).
  eassert (H4 := onEvent_spec s3_bucket_ts (name +:+ "-object-removed") b h
                   _ opts w3 Hwf3).
  destruct H4 as (w4 & Hrun4 & _ & Hd4 & _).
  exists w4. unfold bind, ret. rewrite Hrun1, Hrun2.
  split; [by erewrite Hrun3, Hrun4|].
  rewrite Hd1, <- !app_assoc in Hd2. rewrite Hd2, <- !app_assoc in Hd3.
  rewrite Hd3, <- !app_assoc in Hd4.
  rewrite (declared_since_app _ _ _ Hd4). split; [done|].
  unfold resources_of_call, funcSuffix. cbn [fmap list_fmap app type_and_name].
  rewrite !append_assoc.
  repeat (apply NoDup_cons; split;
          [repeat (rewrite not_elem_of_cons; split);
           try apply not_elem_of_nil;
           intros [= Heq]; apply append_inj in Heq; discriminate Heq|]).
  apply NoDup_nil_2.
Qed.

Lemma helpers_do_not_collide_witness :
  ∃ w',
    all_helpers "img" B1 handler0 None None None None None two_pending
    = (Returned (), w')
    ∧ length (declared_since two_pending w') = 12
    ∧ NoDup (type_and_name <$> declared_since two_pending w').
Proof.
  apply (helpers_do_not_collide "img" B1 handler0 None None None None None
           two_pending).
  apply Reachable_onEvent, Reachable_onEvent, Reachable_init.
Defined.

(** ** Every subscription is applied once *)

Lemma handles_from_app d d' : ∀ i,
  handles_from i (d ++ d')
  = handles_from i d ++ handles_from (i + length d) d'.
Proof.
  induction d as [|r d IH]; intros i.
  - simpl. by rewrite Nat.add_0_r.
  - cbn [app handles_from length]. rewrite IH, <- app_assoc.
    by replace (S i + length d) with (i + S (length d)) by lia.
Qed.

Lemma handles_from_ge d : ∀ i x, x ∈ handles_from i d → (i ≤ x)%nat.
Proof.
  induction d as [|r d IH]; intros i x; cbn [handles_from].
  - by intros ?%elem_of_nil.
  - intros [Hx|Hx]%elem_of_app.
    + destruct (is_permission r); [|by apply elem_of_nil in Hx].
      apply list_elem_of_singleton in Hx. lia.
    + apply IH in Hx. lia.
Qed.

Lemma handles_from_NoDup d : ∀ i, NoDup (handles_from i d).
Proof.
  induction d as [|r d IH]; intros i; cbn [handles_from]; [constructor|].
  destruct (is_permission r); [|apply IH]. apply NoDup_cons.
  split; [|apply IH]. intros Hi%handles_from_ge. lia.
Qed.

Lemma handles_from_aggregate (r : Registry) i :
  handles_from i (aggregate <$> r) = [].
Proof.
  revert i. induction r as [|e r IH]; intros i; [done|].
  rewrite fmap_cons. cbn [handles_from aggregate is_permission app].
  apply IH.
Qed.

Lemma flushed_app d d' : flushed (d ++ d') = flushed d ++ flushed d'.
Proof. unfold flushed. by rewrite fmap_app, concat_app. Qed.

Lemma flushed_aggregate (r : Registry) :
  flushed (aggregate <$> r) = permission <$> concat r.*2.
Proof.
  unfold flushed. induction r as [|e r IH]; [done|].
  rewrite !fmap_cons. cbn [concat aggregate dependsOn_of].
  by rewrite IH, fmap_app.
Qed.

(** X10.  No subscription is lost and none is applied twice.  In every
    state of a run the permissions declared so far are, each exactly once,
    either among the [dependsOn] of the aggregates declared so far or with
    a request that waits in one of the two registries; so no permission is
    depended on by two aggregates or twice by one. *)
Theorem every_subscription_flushed_once w :
  Reachable w →
  flushed (declared w) ++ waiting bucket_ts w ++ waiting s3_bucket_ts w
    ≡ₚ permission_handles (declared w)
  ∧ NoDup (flushed (declared w)).
Proof.
  intros Hw.
  assert (Hperm : flushed (declared w) ++ waiting bucket_ts w
                    ++ waiting s3_bucket_ts w
                  ≡ₚ permission_handles (declared w)).
  { induction Hw as [|w c Hw IH|w m Hw IH]; [done| |].
    - pose proof (Reachable_wf w Hw) as Hwf.
      destruct (call_spec c w Hwf) as (w' & Hrun & _ & Hd & Hr & _).
      pose proof (λ m, call_registered_ne c w w' _ m Hwf Hrun) as Ho.
      rewrite Hrun. cbn [snd]. unfold permission_handles.
      rewrite Hd, flushed_app, handles_from_app. fold (permission_handles (declared w)).
      rewrite <- IH. cbn [resources_of_call handles_from is_permission app
                          flushed fmap list_fmap concat dependsOn_of].
      rewrite app_nil_r.
      replace (S (S (0 + length (declared w))))
        with (permission (info_of c (object_of_call (c_bucket c)
                                       (length (declared w)))))
        by (simpl; lia).
      unfold waiting. destruct (c_module c) eqn:Hm.
      + rewrite Hr, (Ho s3_bucket_ts) by done.
        rewrite register_Permutation, fmap_cons. solve_Permutation.
      + rewrite Hr, (Ho bucket_ts) by done.
        rewrite register_Permutation, fmap_cons. solve_Permutation.
    - pose proof (Reachable_wf w Hw) as Hwf.
      destruct (beforeExit_spec m w Hwf) as (w' & Hrun & _ & Hd & Hr & Ho).
      rewrite Hrun. cbn [snd]. unfold permission_handles.
      rewrite Hd, flushed_app, handles_from_app, handles_from_aggregate.
      rewrite app_nil_r. fold (permission_handles (declared w)).
      rewrite <- IH, flushed_aggregate. unfold waiting. destruct m.
      + rewrite Hr, (Ho s3_bucket_ts) by done. simpl. solve_Permutation.
      + rewrite Hr, (Ho bucket_ts) by done. simpl. solve_Permutation. }
  split; [done|].
  assert (Hnd : NoDup (flushed (declared w) ++ waiting bucket_ts w
                         ++ waiting s3_bucket_ts w)).
  { rewrite Hperm. apply handles_from_NoDup. }
  by apply NoDup_app in Hnd as [? _].
Qed.

Lemma every_subscription_flushed_once_witness :
  flushed (declared (run late_registration two_pending).2)
    ++ waiting bucket_ts (run late_registration two_pending).2
    ++ waiting s3_bucket_ts (run late_registration two_pending).2
    ≡ₚ permission_handles (declared (run late_registration two_pending).2)
  ∧ NoDup (flushed (declared (run late_registration two_pending).2)).
Proof.
  apply (every_subscription_flushed_once
           (run late_registration two_pending).2).
  apply Reachable_run, Reachable_onEvent, Reachable_onEvent, Reachable_init.
Defined.
